(** * Experiment harness of the 175 project: launch scripts and notebook

    The repository holds five bash scripts that launch cleanrl training runs
    and one notebook that measures the sparsity of a saved network and calls
    cleanrl's evaluation routine.  This development embeds the scripts as
    abstract syntax of a small bash fragment, gives that fragment an
    executable semantics that records what the script prints and which
    external processes it starts, and embeds the notebook's code cells. *)

From Stdlib Require Import Ascii QArith Qcanon.
From stdpp Require Import gmap strings list pretty.

Local Open Scope string_scope.
Local Open Scope list_scope.
Local Open Scope nat_scope.

#[local] Set Warnings "-register-all,-clear-no-such-hyp".

(** ** A bash fragment *)

Module Sh.

(** Words as they occur in the scripts.  [Param] and [Positional] stand for
    unquoted expansions, so their value undergoes field splitting on white
    space; pathname expansion is not modelled (no value in the scripts holds
    a glob character). *)
Inductive word :=
| Bare (s : string)            (* run, --track, 0.1 *)
| DQuote (s : string)          (* "random", "Starting R 0.1" *)
| Param (x : string)           (* $env, $path_to_poetry, $? *)
| Positional (n : positive).   (* $1, $2 *)

(** A simple command: its words, and whether it ends in [&]. *)
Record simple := Simple { cmd_words : list word; background : bool }.

Inductive command :=
| Assign (x : string) (w : word)               (* x=w *)
| FunDef (f : string) (body : list simple)     (* f () { body } *)
| Run (c : simple)
| SetErrexit.                                  (* set -e *)

Definition script := list command.

(** What an observer of the script sees. *)
Inductive event :=
| Print (line : string)                    (* a line on standard output *)
| Spawn (pid : nat) (argv : list string)   (* an external process starts *)
| Exit (pid : nat) (code : nat).           (* the shell has waited for it *)

Global Instance event_eq_dec : EqDecision event.
Proof. solve_decision. Defined.

Record state := State {
  vars : gmap string string;
  funs : gmap string (list simple);
  args : list string;        (* positional parameters *)
  status : nat;              (* $? *)
  errexit : bool;            (* set -e in force *)
  nruns : nat;               (* external processes started so far *)
  halted : bool              (* the shell has exited *)
}.

Definition initial : state :=
  State ∅ ∅ [] 0 false 0 false.

(** The behaviour of the external programs: the exit code of the [pid]-th
    process, started with [argv]. *)
Definition oracle := nat → list string → nat.

Definition decimal (n : nat) : string := pretty n.

Definition param_value (σ : state) (x : string) : string :=
  if decide (x = "?") then decimal (status σ)
  else default EmptyString (vars σ !! x).

Definition positional_value (σ : state) (n : positive) : string :=
  default EmptyString (args σ !! (Pos.to_nat n - 1)).

(** Field splitting with the default [IFS]: space, tab and newline. *)
Definition is_ifs (a : ascii) : bool :=
  match a with
  | " " | "009" | "010" => true
  | _ => false
  end%char.

Fixpoint split_go (cur : option string) (s : string) : list string :=
  match s with
  | EmptyString => option_list (String.rev <$> cur)
  | String a s =>
      if is_ifs a then option_list (String.rev <$> cur) ++ split_go None s
      else split_go (Some (String a (default EmptyString cur))) s
  end.

Definition split_fields : string → list string := split_go None.

(** Expansion of a word in command position: a list of fields. *)
Definition expand (σ : state) (w : word) : list string :=
  match w with
  | Bare s => [s]
  | DQuote s => [s]
  | Param x => split_fields (param_value σ x)
  | Positional n => split_fields (positional_value σ n)
  end.

(** Expansion of the right-hand side of an assignment: no field splitting. *)
Definition expand_value (σ : state) (w : word) : string :=
  match w with
  | Bare s => s
  | DQuote s => s
  | Param x => param_value σ x
  | Positional n => positional_value σ n
  end.

Definition fields (σ : state) (c : simple) : list string :=
  mjoin (expand σ <$> cmd_words c).

Definition set_status (σ : state) (st : nat) : state :=
  State (vars σ) (funs σ) (args σ) st (errexit σ) (nruns σ)
        (halted σ || (errexit σ && negb (st =? 0)%nat)).

Definition set_args (σ : state) (a : list string) : state :=
  State (vars σ) (funs σ) a (status σ) (errexit σ) (nruns σ) (halted σ).

Definition bump (σ : state) : state :=
  State (vars σ) (funs σ) (args σ) (status σ) (errexit σ) (S (nruns σ))
        (halted σ).

Definition echo_line (ws : list string) : string :=
  match ws with
  | [] => EmptyString
  | w :: ws => foldl (λ acc x, acc +:+ " " +:+ x) w ws
  end.

(** An external command.  In the foreground the shell waits for the process
    and takes its exit code as [$?]; in the background it does not wait. *)
Definition run_external (o : oracle) (σ : state) (argv : list string)
    (bg : bool) : state * list event :=
  let pid := nruns σ in
  if bg then (set_status (bump σ) 0, [Spawn pid argv])
  else
    let code := o pid argv in
    (set_status (bump σ) code, [Spawn pid argv; Exit pid code]).

(** A command that is not a function call: the builtin [echo] or an external
    program.  Inside a function body a call of another function is outside
    the fragment ([None]). *)
Definition run_leaf (o : oracle) (σ : state) (c : simple)
    : option (state * list event) :=
  match fields σ c with
  | [] => Some (set_status σ 0, [])
  | name :: rest =>
      if decide (is_Some (funs σ !! name)) then None
      else if decide (name = "echo")
      then Some (set_status σ 0, [Print (echo_line rest)])
      else Some (run_external o σ (name :: rest) (background c))
  end.

Fixpoint run_body (o : oracle) (σ : state) (body : list simple)
    : option (state * list event) :=
  match body with
  | [] => Some (σ, [])
  | c :: body =>
      if halted σ then Some (σ, [])
      else
        '(σ1, t1) ← run_leaf o σ c;
        '(σ2, t2) ← run_body o σ1 body;
        Some (σ2, t1 ++ t2)
  end.

(** A simple command at top level: functions are looked up before builtins
    and external programs; a function runs with the call's arguments as its
    positional parameters, which are restored on return. *)
Definition run_simple (o : oracle) (σ : state) (c : simple)
    : option (state * list event) :=
  match fields σ c with
  | [] => Some (set_status σ 0, [])
  | name :: rest =>
      match funs σ !! name with
      | Some body =>
          '(σ1, t) ← run_body o (set_args σ rest) body;
          Some (set_args σ1 (args σ), t)
      | None => run_leaf o σ c
      end
  end.

Definition step (o : oracle) (σ : state) (c : command)
    : option (state * list event) :=
  match c with
  | Assign x w =>
      Some (State (<[x := expand_value σ w]> (vars σ)) (funs σ) (args σ) 0
                  (errexit σ) (nruns σ) (halted σ), [])
  | FunDef f body =>
      Some (State (vars σ) (<[f := body]> (funs σ)) (args σ) 0
                  (errexit σ) (nruns σ) (halted σ), [])
  | Run c => run_simple o σ c
  | SetErrexit =>
      Some (State (vars σ) (funs σ) (args σ) 0 true (nruns σ) (halted σ),
            [])
  end.

Fixpoint exec (o : oracle) (σ : state) (s : script)
    : option (state * list event) :=
  match s with
  | [] => Some (σ, [])
  | c :: s =>
      if halted σ then Some (σ, [])
      else
        '(σ1, t1) ← step o σ c;
        '(σ2, t2) ← exec o σ1 s;
        Some (σ2, t1 ++ t2)
  end.

(** The trace of a script started with no arguments. *)
Definition trace (o : oracle) (s : script) : option (list event) :=
  snd <$> exec o initial s.

End Sh.

(** ** The launch scripts *)

Module Scripts.
Import Sh.

Definition fg (ws : list word) : command := Run (Simple ws false).
Definition echo (w : word) : command := fg [Bare "echo"; w].

Definition env_id : string := "SpaceInvadersNoFrameskip-v4".
Definition poetry : string := "/home/omar/miniconda3/envs/175-env/bin/poetry".

(** The two assignments every script starts with. *)
Definition common_variables : script :=
  [ Assign "env" (DQuote env_id);
    Assign "path_to_poetry" (DQuote poetry) ].

(** scripts/baseline.sh *)
Definition baseline : script :=
  common_variables ++
  [ FunDef "run_python_command"
      [ Simple [ Param "path_to_poetry"; Bare "run"; Bare "python";
                 Bare "cleanrl/dqn_atari.py";
                 Bare "--env-id"; Param "env";
                 Bare "--capture_video";
                 Bare "--buffer_size"; Bare "100000";
                 Bare "--save_model";
                 Bare "--track" ] false ];
    echo (DQuote "Creating baseline model");
    echo (Bare "run_python_command");
    fg [Bare "run_python_command"];
    echo (DQuote "Finished creating baseline model") ].

(** One sweep point as the scripts write it: two [echo]s, the call, an
    [echo]. *)
Definition point (start : string) (exp amount : word) (finish : string)
    : script :=
  [ echo (DQuote start);
    echo (Bare "run_python_command");
    fg [Bare "run_python_command"; exp; amount];
    echo (DQuote finish) ].

(** The PPO sweep with the default (L1) pruning method. *)
Definition ppo_l1_sweep : script :=
  common_variables ++
  [ FunDef "run_python_command"
      [ Simple [ Param "path_to_poetry"; Bare "run"; Bare "python";
                 Bare "cleanrl/ppo_atari.py";
                 Bare "--exp_name"; Positional 1;
                 Bare "--env-id"; Param "env";
                 Bare "--capture_video";
                 Bare "--save_model";
                 Bare "--total_timesteps"; Bare "2000000";
                 Bare "--track";
                 Bare "--prune";
                 Bare "--prune_amount"; Positional 2 ] false ] ] ++
  point "Starting Baseline" (DQuote "Baseline") (Bare "0")
        "Finished Baseline" ++
  point "Starting L1 0.1" (DQuote "L1_0.1") (Bare "0.1") "Finished L1 0.1" ++
  point "Starting L1 0.3" (DQuote "L1_0.3") (Bare "0.3") "Finished L1 0.3" ++
  point "Starting L1 0.5" (DQuote "L1_0.5") (Bare "0.5") "Finished L1 0.5".

(** The DQN sweep with random pruning.  Its Baseline point is commented out
    in the source and so is no command. *)
Definition dqn_random_sweep : script :=
  common_variables ++
  [ FunDef "run_python_command"
      [ Simple [ Param "path_to_poetry"; Bare "run"; Bare "python";
                 Bare "cleanrl/dqn_atari.py";
                 Bare "--exp_name"; Positional 1;
                 Bare "--env-id"; Param "env";
                 Bare "--capture_video";
                 Bare "--buffer_size"; Bare "100000";
                 Bare "--save_model";
                 Bare "--total_timesteps"; Bare "2000000";
                 Bare "--track";
                 Bare "--prune";
                 Bare "--prune_method"; DQuote "random";
                 Bare "--prune_amount"; Positional 2 ] false ] ] ++
  point "Starting R 0.05" (DQuote "R_0.05") (Bare "0.05") "Finished R 0.01" ++
  point "Starting R 0.1" (DQuote "R_0.1") (Bare "0.1") "Finished R 0.1" ++
  point "Starting R 0.3" (DQuote "R_0.3") (Bare "0.3") "Finished R 0.3" ++
  point "Starting R 0.5" (DQuote "R_0.5") (Bare "0.5") "Finished R 0.5" ++
  point "Starting R 0.8" (DQuote "R_0.8") (Bare "0.8") "Finished R 0.8".

(** The short PPO run with random pruning (10000 timesteps). *)
Definition ppo_sanity : script :=
  common_variables ++
  [ FunDef "run_python_command"
      [ Simple [ Param "path_to_poetry"; Bare "run"; Bare "python";
                 Bare "cleanrl/ppo_atari.py";
                 Bare "--exp_name"; Positional 1;
                 Bare "--env-id"; Param "env";
                 Bare "--capture_video";
                 Bare "--total_timesteps"; Bare "10000";
                 Bare "--track";
                 Bare "--prune";
                 Bare "--prune_amount"; Positional 2;
                 Bare "--prune_method"; DQuote "random";
                 Bare "--save_model" ] false ] ] ++
  point "Starting L1 0.1" (DQuote "ppo_sanity") (Bare "0.1") "Finished L1 0.1".

(** src/scripts/ppo/random_test.sh *)
Definition ppo_random_test : script :=
  common_variables ++
  [ FunDef "run_python_command"
      [ Simple [ Param "path_to_poetry"; Bare "run"; Bare "python";
                 Bare "cleanrl/ppo_atari.py";
                 Bare "--exp_name"; Positional 1;
                 Bare "--env-id"; Param "env";
                 Bare "--capture_video";
                 Bare "--total_timesteps"; Bare "2000000";
                 Bare "--track";
                 Bare "--prune";
                 Bare "--prune_amount"; Positional 2;
                 Bare "--prune_method"; DQuote "random";
                 Bare "--save_model" ] false ] ] ++
  point "Starting R 0.1" (DQuote "ppo_R_0.1") (Bare "0.1") "Finished R 0.1" ++
  point "Starting R 0.3" (DQuote "ppo_R_0.3") (Bare "0.3") "Finished R 0.3" ++
  point "Starting R 0.5" (DQuote "ppo_R_0.5") (Bare "0.5") "Finished R 0.5".

(** Every shell script of the repository. *)
Definition repository : list script :=
  [ baseline; ppo_l1_sweep; dqn_random_sweep; ppo_sanity; ppo_random_test ].

End Scripts.

(** ** Reading traces and scripts *)

Module Obs.
Import Sh.

(** The command lines of the external processes a trace starts, in order. *)
Definition invocations (t : list event) : list (list string) :=
  omap (λ e, match e with Spawn _ argv => Some argv | _ => None end) t.

(** The lines printed. *)
Definition printed (t : list event) : list string :=
  omap (λ e, match e with Print l => Some l | _ => None end) t.

(** What remains of a trace when exit codes are forgotten. *)
Definition forget_code (e : event) : event :=
  match e with
  | Exit pid _ => Exit pid 0
  | e => e
  end.

Definition is_flag (w : string) : bool := String.prefix "--" w.

Definition flags (argv : list string) : list string :=
  List.filter is_flag argv.

(** The word that follows flag [f] on a command line, when there is one and
    it is not itself a flag. *)
Fixpoint flag_value (f : string) (argv : list string) : option string :=
  match argv with
  | [] => None
  | w :: rest =>
      if decide (w = f) then
        match rest with
        | v :: _ => if is_flag v then None else Some v
        | [] => None
        end
      else flag_value f rest
  end.

Definition has_flag (f : string) (argv : list string) : bool :=
  bool_decide (f ∈ argv).

(** The processes started and not yet waited for, after a trace. *)
Definition track (R : gset nat) (e : event) : gset nat :=
  match e with
  | Print _ => R
  | Spawn pid _ => R ∪ {[pid]}
  | Exit pid _ => R ∖ {[pid]}
  end.

Definition running (t : list event) : gset nat := foldl track ∅ t.

(** Traces in which every process is waited for as soon as it starts. *)
Inductive sequential : list event → Prop :=
| seq_nil : sequential []
| seq_print l t : sequential t → sequential (Print l :: t)
| seq_run pid argv code t :
    sequential t → sequential (Spawn pid argv :: Exit pid code :: t).

(** Syntactic checks on scripts. *)
Definition text (w : word) : option string :=
  match w with
  | Bare s | DQuote s => Some s
  | _ => None
  end.

Definition reads_status (w : word) : bool :=
  match w with
  | Param x => bool_decide (x = "?")
  | _ => false
  end.

Definition simple_reads_status (c : simple) : bool :=
  existsb reads_status (cmd_words c).

(** [set -e] and [$?] are the two ways the fragment has to make a script
    depend on an exit code. *)
Definition command_checks_status (c : command) : bool :=
  match c with
  | Assign _ w => reads_status w
  | FunDef _ body => existsb simple_reads_status body
  | Run c => simple_reads_status c
  | SetErrexit => true
  end.

Definition checks_status (s : script) : bool :=
  existsb command_checks_status s.

Definition command_backgrounds (c : command) : bool :=
  match c with
  | FunDef _ body => existsb background body
  | Run c => background c
  | _ => false
  end.

Definition backgrounds (s : script) : bool :=
  existsb command_backgrounds s.

(** The calls of [run_python_command] a script makes with two literal
    arguments: its sweep list of (experiment name, pruning amount). *)
Definition sweep_point (c : command) : option (string * string) :=
  match c with
  | Run (Simple [Bare "run_python_command"; e; a] _) =>
      e ← text e; a ← text a; Some (e, a)
  | _ => None
  end.

Definition sweep_list (s : script) : list (string * string) :=
  omap sweep_point s.

(** A command line is a call for sweep point [p] when [p] gives the values
    of its [--exp_name] and [--prune_amount]. *)
Definition called_with (p : string * string) (argv : list string) : bool :=
  bool_decide (flag_value "--exp_name" argv = Some p.1) &&
  bool_decide (flag_value "--prune_amount" argv = Some p.2).

End Obs.

(** ** General facts about the fragment *)

Module Facts.
Import Sh Obs.

(** *** Foreground commands give sequential traces *)

Lemma sequential_app t1 t2 :
  sequential t1 → sequential t2 → sequential (t1 ++ t2).
Proof.
  intros H1 H2. induction H1 as [|l t _ IH|pid argv code t _ IH]; simpl.
  - exact H2.
  - by constructor.
  - by constructor.
Qed.

Lemma running_print l t : running (Print l :: t) = running t.
Proof. reflexivity. Qed.

Lemma running_run pid argv code t :
  running (Spawn pid argv :: Exit pid code :: t) = running t.
Proof.
  unfold running. simpl.
  assert ((∅ ∪ {[pid]}) ∖ {[pid]} = (∅ : gset nat)) as -> by set_solver.
  reflexivity.
Qed.

(** During a sequential trace no process or exactly one process runs. *)
Lemma sequential_running_cases t :
  sequential t → ∀ t1 t2, t = t1 ++ t2 →
  running t1 = ∅ ∨ ∃ pid, running t1 = {[pid]}.
Proof.
  induction 1 as [|l t _ IH|pid argv code t _ IH]; intros t1 t2 E.
  - destruct t1; [by left | discriminate].
  - destruct t1 as [|e t1]; [by left|].
    simplify_eq/=. rewrite running_print. eauto.
  - destruct t1 as [|e [|e' t1]]; [by left| |].
    + simplify_eq/=. right. exists pid.
      unfold running. simpl. set_solver.
    + simplify_eq/=. rewrite running_run. eauto.
Qed.

Lemma sequential_running t t1 :
  sequential t → t1 `prefix_of` t → size (running t1) ≤ 1.
Proof.
  intros Hseq [t2 E].
  destruct (sequential_running_cases t Hseq t1 t2 E) as [-> | [pid ->]].
  - rewrite size_empty. lia.
  - rewrite size_singleton. lia.
Qed.

(** No function in the table has a background command. *)
Definition funs_fg (σ : state) : Prop :=
  ∀ f body, funs σ !! f = Some body → existsb background body = false.

Lemma run_leaf_sequential o σ c σ' t :
  run_leaf o σ c = Some (σ', t) → background c = false →
  sequential t ∧ funs σ' = funs σ.
Proof.
  unfold run_leaf, run_external. intros H Hbg. rewrite Hbg in H.
  destruct (fields σ c) as [|name rest]; [|repeat case_decide];
    simplify_eq; simpl; split; auto; repeat constructor.
Qed.

Lemma run_body_sequential o body : ∀ σ σ' t,
  run_body o σ body = Some (σ', t) → existsb background body = false →
  sequential t ∧ funs σ' = funs σ.
Proof.
  induction body as [|c body IH]; simpl; intros σ σ' t H Hbg.
  - simplify_eq. split; [constructor | done].
  - apply orb_false_elim in Hbg as [Hc Hbody].
    destruct (halted σ); [simplify_eq; split; [constructor | done]|].
    destruct (run_leaf o σ c) as [[σ1 t1]|] eqn:E1; [|done]. simpl in H.
    destruct (run_body o σ1 body) as [[σ2 t2]|] eqn:E2; [|done].
    simpl in H. simplify_eq.
    destruct (run_leaf_sequential _ _ _ _ _ E1 Hc) as [? Hf1].
    destruct (IH _ _ _ E2 Hbody) as [? Hf2].
    split; [by apply sequential_app | congruence].
Qed.

Lemma run_simple_sequential o σ c σ' t :
  funs_fg σ → run_simple o σ c = Some (σ', t) → background c = false →
  sequential t ∧ funs σ' = funs σ.
Proof.
  unfold run_simple. intros Hfg H Hbg.
  destruct (fields σ c) as [|name rest] eqn:Ef.
  { simplify_eq. split; [constructor | done]. }
  destruct (funs σ !! name) as [body|] eqn:Elook.
  - destruct (run_body o (set_args σ rest) body) as [[σ1 t1]|] eqn:E1;
      [|done].
    simpl in H. simplify_eq.
    destruct (run_body_sequential _ _ _ _ _ E1 (Hfg _ _ Elook)) as [? Hf].
    split; [done | exact Hf].
  - exact (run_leaf_sequential _ _ _ _ _ H Hbg).
Qed.

Lemma step_sequential o σ c σ' t :
  funs_fg σ → step o σ c = Some (σ', t) →
  command_backgrounds c = false →
  sequential t ∧ funs_fg σ'.
Proof.
  intros Hfg H Hbg. destruct c as [x w|f body|c|]; simpl in *.
  - simplify_eq. split; [constructor | exact Hfg].
  - simplify_eq. split; [constructor|].
    intros g b. simpl. rewrite lookup_insert.
    case_decide; [naive_solver | apply Hfg].
  - destruct (run_simple_sequential _ _ _ _ _ Hfg H Hbg) as [? Hf].
    split; [done|]. unfold funs_fg. by rewrite Hf.
  - simplify_eq. split; [constructor | exact Hfg].
Qed.

Lemma exec_sequential o s : ∀ σ σ' t,
  funs_fg σ → exec o σ s = Some (σ', t) → backgrounds s = false →
  sequential t.
Proof.
  induction s as [|c s IH]; simpl; intros σ σ' t Hfg H Hbg.
  - simplify_eq. constructor.
  - apply orb_false_elim in Hbg as [Hc Hs].
    destruct (halted σ); [simplify_eq; constructor|].
    destruct (step o σ c) as [[σ1 t1]|] eqn:E1; [|done]. simpl in H.
    destruct (exec o σ1 s) as [[σ2 t2]|] eqn:E2; [|done].
    simpl in H. simplify_eq.
    destruct (step_sequential _ _ _ _ _ Hfg E1 Hc) as [? Hfg1].
    apply sequential_app; eauto.
Qed.

(** A script without [&] runs its external processes one at a time. *)
Lemma foreground_sequential o s t :
  backgrounds s = false → trace o s = Some t → sequential t.
Proof.
  unfold trace. intros Hbg H.
  destruct (exec o initial s) as [[σ' t']|] eqn:E; [|done].
  simpl in H. simplify_eq.
  eapply exec_sequential; [|exact E|exact Hbg].
  intros f body. simpl. by rewrite lookup_empty.
Qed.

(** *** Scripts that do not look at exit codes *)

(** Two shells that differ at most in [$?], neither under [set -e] nor
    halted. *)
Record agree (σ1 σ2 : state) : Prop := Agree {
  agree_vars : vars σ1 = vars σ2;
  agree_funs : funs σ1 = funs σ2;
  agree_args : args σ1 = args σ2;
  agree_nruns : nruns σ1 = nruns σ2;
  agree_errexit : errexit σ1 = false ∧ errexit σ2 = false;
  agree_halted : halted σ1 = false ∧ halted σ2 = false
}.

Definition funs_blind (σ : state) : Prop :=
  ∀ f body, funs σ !! f = Some body →
            existsb simple_reads_status body = false.

(** Two results that agree on everything but exit codes. *)
Definition same_visible (r1 r2 : option (state * list event)) : Prop :=
  match r1, r2 with
  | Some (σ1, t1), Some (σ2, t2) =>
      agree σ1 σ2 ∧ forget_code <$> t1 = forget_code <$> t2
  | None, None => True
  | _, _ => False
  end.

Lemma agree_set_status σ1 σ2 st1 st2 :
  agree σ1 σ2 → agree (set_status σ1 st1) (set_status σ2 st2).
Proof.
  intros [? ? ? ? [E1 E2] [H1 H2]].
  split; simpl; rewrite ?E1, ?E2, ?H1, ?H2; auto.
Qed.

Lemma agree_set_args σ1 σ2 a :
  agree σ1 σ2 → agree (set_args σ1 a) (set_args σ2 a).
Proof. intros []. split; simpl; auto. Qed.

Lemma agree_bump σ1 σ2 : agree σ1 σ2 → agree (bump σ1) (bump σ2).
Proof. intros []. split; simpl; auto. Qed.

Lemma expand_agree σ1 σ2 w :
  agree σ1 σ2 → reads_status w = false → expand σ1 w = expand σ2 w.
Proof.
  intros [Hv _ Ha _ _ _] Hw. destruct w as [s|s|x|n]; simpl in *; auto.
  - unfold param_value. apply bool_decide_eq_false in Hw.
    rewrite decide_False by done. rewrite decide_False by done.
    by rewrite Hv.
  - unfold positional_value. by rewrite Ha.
Qed.

Lemma expand_value_agree σ1 σ2 w :
  agree σ1 σ2 → reads_status w = false →
  expand_value σ1 w = expand_value σ2 w.
Proof.
  intros [Hv _ Ha _ _ _] Hw. destruct w as [s|s|x|n]; simpl in *; auto.
  - unfold param_value. apply bool_decide_eq_false in Hw.
    rewrite decide_False by done. rewrite decide_False by done.
    by rewrite Hv.
  - unfold positional_value. by rewrite Ha.
Qed.

Lemma fields_agree σ1 σ2 c :
  agree σ1 σ2 → simple_reads_status c = false →
  fields σ1 c = fields σ2 c.
Proof.
  intros Hag. unfold fields, simple_reads_status.
  induction (cmd_words c) as [|w ws IH]; csimpl; [done|].
  intros [Hw Hws]%orb_false_elim.
  by rewrite (expand_agree σ1 σ2 w Hag Hw), IH.
Qed.

Lemma run_leaf_agree o1 o2 σ1 σ2 c :
  agree σ1 σ2 → simple_reads_status c = false →
  same_visible (run_leaf o1 σ1 c) (run_leaf o2 σ2 c).
Proof.
  intros Hag Hc. unfold run_leaf, run_external.
  rewrite (fields_agree σ1 σ2 c Hag Hc).
  rewrite (agree_funs _ _ Hag), (agree_nruns _ _ Hag).
  destruct (fields σ2 c) as [|name rest]; simpl.
  { split; [by apply agree_set_status | done]. }
  case_decide; [done|]. case_decide; simpl.
  { split; [by apply agree_set_status | done]. }
  destruct (background c); simpl;
    (split; [by apply agree_set_status, agree_bump | done]).
Qed.

Lemma run_leaf_funs o σ c σ' t :
  run_leaf o σ c = Some (σ', t) → funs σ' = funs σ.
Proof.
  unfold run_leaf, run_external. intros H.
  destruct (fields σ c) as [|name rest]; [|repeat case_decide];
    try destruct (background c); by simplify_eq.
Qed.

Lemma run_body_agree o1 o2 body : ∀ σ1 σ2,
  agree σ1 σ2 → existsb simple_reads_status body = false →
  same_visible (run_body o1 σ1 body) (run_body o2 σ2 body).
Proof.
  induction body as [|c body IH]; simpl; intros σ1 σ2 Hag Hb.
  { done. }
  apply orb_false_elim in Hb as [Hc Hb].
  destruct (agree_halted _ _ Hag) as [-> ->].
  pose proof (run_leaf_agree o1 o2 σ1 σ2 c Hag Hc) as Hleaf.
  destruct (run_leaf o1 σ1 c) as [[τ1 t1]|],
           (run_leaf o2 σ2 c) as [[τ2 t2]|]; simpl in *; try done.
  destruct Hleaf as [Hag' Ht].
  specialize (IH τ1 τ2 Hag' Hb).
  destruct (run_body o1 τ1 body) as [[υ1 u1]|],
           (run_body o2 τ2 body) as [[υ2 u2]|]; simpl in *; try done.
  destruct IH as [? Hu]. split; [done|].
  by rewrite !fmap_app, Ht, Hu.
Qed.

Lemma run_body_funs o body : ∀ σ σ' t,
  run_body o σ body = Some (σ', t) → funs σ' = funs σ.
Proof.
  induction body as [|c body IH]; simpl; intros σ σ' t H.
  { by simplify_eq. }
  destruct (halted σ); [by simplify_eq|].
  destruct (run_leaf o σ c) as [[σ1 t1]|] eqn:E1; [|done]. simpl in H.
  destruct (run_body o σ1 body) as [[σ2 t2]|] eqn:E2; [|done].
  simpl in H. simplify_eq.
  rewrite (IH _ _ _ E2). eapply run_leaf_funs, E1.
Qed.

Lemma run_simple_agree o1 o2 σ1 σ2 c :
  agree σ1 σ2 → funs_blind σ1 → simple_reads_status c = false →
  same_visible (run_simple o1 σ1 c) (run_simple o2 σ2 c).
Proof.
  intros Hag Hblind Hc. unfold run_simple.
  rewrite (fields_agree σ1 σ2 c Hag Hc).
  destruct (fields σ2 c) as [|name rest]; simpl.
  { split; [by apply agree_set_status | done]. }
  rewrite <- (agree_funs _ _ Hag), <- (agree_args _ _ Hag).
  destruct (funs σ1 !! name) as [body|] eqn:Elook.
  - pose proof (run_body_agree o1 o2 body _ _
                  (agree_set_args _ _ rest Hag) (Hblind _ _ Elook)) as Hb.
    destruct (run_body o1 (set_args σ1 rest) body) as [[τ1 t1]|],
             (run_body o2 (set_args σ2 rest) body) as [[τ2 t2]|];
      simpl in *; try done.
    destruct Hb as [? ?]. split; [by apply agree_set_args | done].
  - by apply run_leaf_agree.
Qed.

Lemma run_simple_funs o σ c σ' t :
  run_simple o σ c = Some (σ', t) → funs σ' = funs σ.
Proof.
  unfold run_simple. intros H.
  destruct (fields σ c) as [|name rest]; [by simplify_eq|].
  destruct (funs σ !! name) as [body|]; [|by eapply run_leaf_funs].
  destruct (run_body o (set_args σ rest) body) as [[σ1 t1]|] eqn:E1;
    [|done].
  simpl in H. simplify_eq. simpl. apply (run_body_funs _ _ _ _ _ E1).
Qed.

Lemma step_agree o1 o2 σ1 σ2 c :
  agree σ1 σ2 → funs_blind σ1 → command_checks_status c = false →
  same_visible (step o1 σ1 c) (step o2 σ2 c).
Proof.
  intros Hag Hblind Hc. destruct c as [x w|f body|c|]; simpl in *.
  - rewrite (expand_value_agree σ1 σ2 w Hag Hc).
    destruct Hag. split; [split; simpl; auto; congruence | done].
  - destruct Hag. split; [split; simpl; auto; congruence | done].
  - by apply run_simple_agree.
  - done.
Qed.

Lemma step_blind o σ c σ' t :
  funs_blind σ → command_checks_status c = false →
  step o σ c = Some (σ', t) → funs_blind σ'.
Proof.
  intros Hblind Hc H. destruct c as [x w|f body|c|]; simpl in *.
  - by simplify_eq.
  - simplify_eq. intros g b. simpl. rewrite lookup_insert.
    case_decide; [naive_solver | apply Hblind].
  - unfold funs_blind. by rewrite (run_simple_funs _ _ _ _ _ H).
  - done.
Qed.

Lemma exec_agree o1 o2 s : ∀ σ1 σ2,
  agree σ1 σ2 → funs_blind σ1 → checks_status s = false →
  same_visible (exec o1 σ1 s) (exec o2 σ2 s).
Proof.
  induction s as [|c s IH]; simpl; intros σ1 σ2 Hag Hblind Hs.
  { done. }
  apply orb_false_elim in Hs as [Hc Hs].
  destruct (agree_halted _ _ Hag) as [-> ->].
  pose proof (step_agree o1 o2 σ1 σ2 c Hag Hblind Hc) as Hstep.
  destruct (step o1 σ1 c) as [[τ1 t1]|] eqn:E1,
           (step o2 σ2 c) as [[τ2 t2]|]; simpl in *; try done.
  destruct Hstep as [Hag' Ht].
  specialize (IH τ1 τ2 Hag' (step_blind _ _ _ _ _ Hblind Hc E1) Hs).
  destruct (exec o1 τ1 s) as [[υ1 u1]|], (exec o2 τ2 s) as [[υ2 u2]|];
    simpl in *; try done.
  destruct IH as [? Hu]. split; [done|].
  by rewrite !fmap_app, Ht, Hu.
Qed.

(** Whatever the external programs return, a script without [set -e] and
    without [$?] prints the same lines and starts the same processes. *)
Lemma blind_trace o1 o2 s :
  checks_status s = false →
  fmap (M:=list) forget_code <$> trace o1 s
  = fmap (M:=list) forget_code <$> trace o2 s.
Proof.
  intros Hs. unfold trace.
  assert (agree initial initial) as Hag by (by split).
  assert (funs_blind initial) as Hblind
    by (intros f body; simpl; by rewrite lookup_empty).
  pose proof (exec_agree o1 o2 s _ _ Hag Hblind Hs) as H.
  destruct (exec o1 initial s) as [[τ1 t1]|],
           (exec o2 initial s) as [[τ2 t2]|]; simpl in *; try done.
  destruct H as [_ ->]. done.
Qed.


End Facts.

Import Sh Scripts Obs Facts.

(** ** The scripts of the repository *)

(** The flags the interface description lists. *)
Definition interface_flags : list string :=
  [ "--exp_name"; "--env-id"; "--capture_video"; "--buffer_size";
    "--save_model"; "--total_timesteps"; "--track"; "--prune";
    "--prune_amount"; "--prune_method" ].

(** The sweep scripts: those that call [run_python_command] for more than
    one sweep point. *)
Definition is_sweep (s : script) : bool := 1 <? length (sweep_list s).

Definition sweep_scripts : list script := List.filter is_sweep repository.

Lemma sweep_scripts_eq :
  sweep_scripts = [ppo_l1_sweep; dqn_random_sweep; ppo_random_test].
Proof. reflexivity. Qed.

Lemma invocations_forget t :
  invocations (forget_code <$> t) = invocations t.
Proof.
  unfold invocations. induction t as [|[l|pid argv|pid code] t IH];
    csimpl; by rewrite ?IH.
Qed.

Lemma printed_forget t : printed (forget_code <$> t) = printed t.
Proof.
  unfold printed. induction t as [|[l|pid argv|pid code] t IH];
    csimpl; by rewrite ?IH.
Qed.

(** Membership in a short explicit list, by cases. *)
Ltac by_cases H :=
  repeat (apply elem_of_cons in H as [-> | H]);
  [.. | by apply elem_of_nil in H].

Definition flags_within (allowed : list string) (L : list (list string))
    : bool :=
  forallb (λ argv, forallb (λ f, bool_decide (f ∈ allowed)) (flags argv)) L.

Lemma flags_within_spec allowed L :
  flags_within allowed L = true →
  ∀ argv f, argv ∈ L → f ∈ flags argv → f ∈ allowed.
Proof.
  unfold flags_within. rewrite forallb_forall.
  intros H argv f Hargv Hf.
  apply list_elem_of_In in Hargv. specialize (H argv Hargv).
  rewrite forallb_forall in H. apply list_elem_of_In in Hf.
  exact (bool_decide_eq_true_1 _ (H f Hf)).
Qed.

(** C1. Whatever the external programs do, every command line a script of
    the repository starts uses only flags of the interface list, and every
    flag of that list occurs on a command line of some script. *)
Theorem C1_flag_surface (o : oracle) :
  (∀ s, s ∈ repository →
     ∃ t, trace o s = Some t ∧
          ∀ argv f, argv ∈ invocations t → f ∈ flags argv →
                    f ∈ interface_flags)
  ∧ (∀ f, f ∈ interface_flags →
       ∃ s t argv, s ∈ repository ∧ trace o s = Some t ∧
                   argv ∈ invocations t ∧ f ∈ flags argv).
Proof.
  split.
  - intros s Hs. unfold repository in Hs. by_cases Hs;
      (eexists; split; [vm_compute; reflexivity|];
       apply flags_within_spec; vm_compute; reflexivity).
  - intros f Hf. exists dqn_random_sweep. unfold interface_flags in Hf.
    by_cases Hf;
      (eexists; eexists; split; [unfold repository; set_solver|];
       split; [vm_compute; reflexivity|];
       split; [apply list_elem_of_here|];
       apply list_elem_of_In, filter_In; split;
         [apply list_elem_of_In; set_solver | reflexivity]).
Qed.

(** *** Start and finish markers *)

Fixpoint strip_prefix (p s : string) : option string :=
  match p, s with
  | EmptyString, _ => Some s
  | String a p, String b s => if decide (a = b) then strip_prefix p s else None
  | String _ _, EmptyString => None
  end.

Lemma strip_prefix_spec p : ∀ s r, strip_prefix p s = Some r → s = p +:+ r.
Proof.
  induction p as [|a p IH]; intros [|b s] r H; simpl in *;
    try case_decide; simplify_eq; try done.
  apply IH in H as ->. reflexivity.
Qed.

(** The label of a marker line: what follows the keyword and a space. *)
Definition label_of (kw : string) (e : event) : option string :=
  match e with
  | Print l => strip_prefix (kw +:+ " ") l
  | _ => None
  end.

Definition ends_with (suffix s : string) : bool :=
  String.prefix (String.rev suffix) (String.rev s).

(** A label names a sweep point when it is the experiment name or ends
    with the pruning amount as a word of its own. *)
Definition names (label : string) (p : string * string) : bool :=
  bool_decide (label = p.1) || ends_with (" " +:+ p.2) label.

Definition start_marker_for (p : string * string) (e : event) : bool :=
  match label_of "Starting" e with
  | Some l => names l p
  | None => false
  end.

Definition finish_marker_for (p : string * string) (e : event) : bool :=
  match label_of "Finished" e with
  | Some l => names l p
  | None => false
  end.

(** The calls for sweep point [p] in a trace. *)
Definition calls_for (p : string * string) (t : list event)
    : list (list string) :=
  List.filter (called_with p) (invocations t).

(** At position [i]: a start marker naming [p], directly followed by the
    call for [p] and its return, directly followed by a finish marker
    naming [p]. *)
Definition bracketed_at (p : string * string) (t : list event) (i : nat)
    : bool :=
  match t !! i, t !! (i + 1), t !! (i + 2), t !! (i + 3) with
  | Some e0, Some (Spawn pid argv), Some (Exit pid' _), Some e3 =>
      start_marker_for p e0 && called_with p argv &&
      bool_decide (pid = pid') && finish_marker_for p e3
  | _, _, _, _ => false
  end.

(** What the scripts do at position [i]: a start marker naming [p], the
    line [run_python_command], the call for [p] and its return, and a
    finish marker; the two labels are compared except at the point
    (R_0.05, 0.05). *)
Definition wrapped_at (p : string * string) (t : list event) (i : nat)
    : bool :=
  match t !! i, t !! (i + 1), t !! (i + 2), t !! (i + 3), t !! (i + 4) with
  | Some (Print s0), Some (Print mid), Some (Spawn pid argv),
    Some (Exit pid' _), Some (Print s4) =>
      match strip_prefix "Starting " s0, strip_prefix "Finished " s4 with
      | Some l, Some l' =>
          names l p && bool_decide (mid = "run_python_command") &&
          called_with p argv && bool_decide (pid = pid') &&
          (bool_decide (p = ("R_0.05", "0.05")) || bool_decide (l' = l))
      | _, _ => false
      end
  | _, _, _, _, _ => false
  end.

Definition somewhere (check : nat → bool) (t : list event) : bool :=
  existsb check (seq 0 (length t)).

Lemma somewhere_complete (check : nat → bool) (t : list event) :
  (∀ i, check i = true → is_Some (t !! i)) →
  (∃ i, check i = true) → somewhere check t = true.
Proof.
  intros Hdom [i Hi]. apply existsb_exists. exists i. split; [|done].
  apply in_seq. apply Hdom, lookup_lt_is_Some in Hi. lia.
Qed.

Lemma bracketed_at_dom p t i :
  bracketed_at p t i = true → is_Some (t !! i).
Proof. unfold bracketed_at. destruct (t !! i); [eauto | done]. Qed.

Lemma wrapped_at_spec p t i :
  wrapped_at p t i = true →
  ∃ l l' pid argv code,
    t !! i = Some (Print ("Starting " +:+ l)) ∧ names l p = true ∧
    t !! (i + 1) = Some (Print "run_python_command") ∧
    t !! (i + 2) = Some (Spawn pid argv) ∧ called_with p argv = true ∧
    t !! (i + 3) = Some (Exit pid code) ∧
    t !! (i + 4) = Some (Print ("Finished " +:+ l')) ∧
    (p ≠ ("R_0.05", "0.05") → l' = l).
Proof.
  unfold wrapped_at. intros H.
  destruct (t !! i) as [[s0| |]|]; try done.
  destruct (t !! (i + 1)) as [[mid| |]|]; try done.
  destruct (t !! (i + 2)) as [[|pid argv|]|]; try done.
  destruct (t !! (i + 3)) as [[| |pid' code]|]; try done.
  destruct (t !! (i + 4)) as [[s4| |]|]; try done.
  destruct (strip_prefix "Starting " s0) as [l|] eqn:E0; [|done].
  destruct (strip_prefix "Finished " s4) as [l'|] eqn:E4; [|done].
  apply strip_prefix_spec in E0 as ->. apply strip_prefix_spec in E4 as ->.
  apply andb_prop in H as [H Hlabels]. apply andb_prop in H as [H Hpid].
  apply andb_prop in H as [H Hcall]. apply andb_prop in H as [Hname Hmid].
  apply bool_decide_eq_true_1 in Hpid, Hmid. subst.
  exists l, l', pid', argv, code.
  repeat split; try done.
  intros Hp. apply orb_prop in Hlabels as [H|H];
    apply bool_decide_eq_true_1 in H; done.
Qed.

Lemma wrapped_somewhere p t :
  somewhere (wrapped_at p t) t = true →
  ∃ i l l' pid argv code,
    t !! i = Some (Print ("Starting " +:+ l)) ∧ names l p = true ∧
    t !! (i + 1) = Some (Print "run_python_command") ∧
    t !! (i + 2) = Some (Spawn pid argv) ∧ called_with p argv = true ∧
    t !! (i + 3) = Some (Exit pid code) ∧
    t !! (i + 4) = Some (Print ("Finished " +:+ l')) ∧
    (p ≠ ("R_0.05", "0.05") → l' = l).
Proof.
  intros [i [_ Hi]]%existsb_exists. exists i. by apply wrapped_at_spec.
Qed.

(** The claim about a sweep point as the description words it. *)
Definition claimed_point (t : list event) (p : string * string) : Prop :=
  length (calls_for p t) = 1 ∧ ∃ i, bracketed_at p t i = true.

(** C2, refuted as worded.  In the DQN sweep the call for (R_0.05, 0.05)
    is directly preceded by the line run_python_command, not by a start
    marker, and is followed by the marker Finished R 0.01. *)
Lemma C2_counterexample :
  dqn_random_sweep ∈ sweep_scripts ∧
  ("R_0.05", "0.05") ∈ sweep_list dqn_random_sweep ∧
  ∃ t, trace (λ _ _, 0) dqn_random_sweep = Some t ∧
       t !! 1 = Some (Print "run_python_command") ∧
       t !! 4 = Some (Print "Finished R 0.01") ∧
       ¬ claimed_point t ("R_0.05", "0.05").
Proof.
  split; [rewrite sweep_scripts_eq; set_solver|].
  split; [vm_compute; set_solver|].
  eexists. split; [vm_compute; reflexivity|].
  split; [reflexivity|]. split; [reflexivity|].
  intros [_ H].
  match type of H with
  | ∃ i, bracketed_at ?p ?t i = true =>
      apply (somewhere_complete (bracketed_at p t) t (bracketed_at_dom p t))
        in H
  end.
  vm_compute in H. discriminate.
Qed.

(** What a sweep script does, for one behaviour of the external program. *)
Definition sweep_wrapped (s : script) (o : oracle) : Prop :=
  ∃ t, trace o s = Some t ∧
    Forall2 (λ p argv, called_with p argv = true)
            (sweep_list s) (invocations t) ∧
    ∀ p, p ∈ sweep_list s →
      length (calls_for p t) = 1 ∧
      ∃ i l l' pid argv code,
        t !! i = Some (Print ("Starting " +:+ l)) ∧ names l p = true ∧
        t !! (i + 1) = Some (Print "run_python_command") ∧
        t !! (i + 2) = Some (Spawn pid argv) ∧ called_with p argv = true ∧
        t !! (i + 3) = Some (Exit pid code) ∧
        t !! (i + 4) = Some (Print ("Finished " +:+ l')) ∧
        (p ≠ ("R_0.05", "0.05") → l' = l).

(** C2, as the scripts have it.  For every sweep script and any behaviour
    of the external program, the calls are those of the sweep list, in its
    order; each sweep point is called exactly once; its call is preceded
    by a start marker naming the point and the line run_python_command, and
    directly followed by a finish marker, whose label is that of the start
    marker at every point but (R_0.05, 0.05). *)
Theorem C2_sweep_points_wrapped (s : script) (o : oracle) :
  s ∈ sweep_scripts → sweep_wrapped s o.
Proof.
  rewrite sweep_scripts_eq. intros Hs. unfold sweep_wrapped. by_cases Hs.
  all: eexists; split; [vm_compute; reflexivity|].
  all: split; [vm_compute; repeat constructor|].
  all: intros p Hp.
  all: match type of Hp with
       | _ ∈ ?L => let L' := eval vm_compute in L in
                   change L with L' in Hp
       end.
  all: by_cases Hp.
  all: split; [vm_compute; reflexivity|].
  all: apply wrapped_somewhere; vm_compute; reflexivity.
Qed.

(** The DQN sweep, with every run failing, is an instance. *)
Lemma C2_witness :
  dqn_random_sweep ∈ sweep_scripts ∧
  sweep_wrapped dqn_random_sweep (λ _ _, 1).
Proof.
  assert (dqn_random_sweep ∈ sweep_scripts) as H.
  { change (dqn_random_sweep
              ∈ [ppo_l1_sweep; dqn_random_sweep; ppo_random_test]).
    apply list_elem_of_further, list_elem_of_here. }
  split; [exact H | exact (C2_sweep_points_wrapped _ _ H)].
Defined.

(** *** How often each script calls the training program *)

Definition word_is_parameter (w : word) : bool :=
  match w with
  | Param _ | Positional _ => true
  | _ => false
  end.

(** The script defines a function whose command line has a parameter
    expansion. *)
Definition parameterized (s : script) : bool :=
  existsb (λ c, match c with
                | FunDef _ body =>
                    existsb (λ c, existsb word_is_parameter (cmd_words c)) body
                | _ => false
                end) s.

(** C4, refuted as worded: scripts/baseline.sh calls the training program
    once, not more than once. *)
Lemma C4_counterexample :
  baseline ∈ repository ∧
  ¬ ∃ t, trace (λ _ _, 0) baseline = Some t ∧ 1 < length (invocations t).
Proof.
  split; [apply list_elem_of_here|].
  intros (t & Ht & Hlen). vm_compute in Ht. simplify_eq.
  vm_compute in Hlen. lia.
Qed.

Definition calls_training (s : script) (o : oracle) : Prop :=
  parameterized s = true ∧
  ∃ t, trace o s = Some t ∧ sequential t ∧
       ((length (invocations t) = 1 ∧ s ∈ [baseline; ppo_sanity]) ∨
        (1 < length (invocations t) ∧ s ∈ sweep_scripts)).

(** C4, as the scripts have it.  Every script builds its command line from
    parameters and calls the training program one call after the other:
    scripts/baseline.sh and the PPO sanity script exactly once, the three
    sweep scripts more than once. *)
Theorem C4_sequential_calls (s : script) (o : oracle) :
  s ∈ repository → calls_training s o.
Proof.
  intros Hs. unfold repository in Hs. by_cases Hs.
  all: split; [reflexivity|].
  all: eexists; split; [vm_compute; reflexivity|].
  all: split; [repeat constructor|].
  1: left; split; [reflexivity | apply list_elem_of_here].
  3: left; split;
       [reflexivity | apply list_elem_of_further, list_elem_of_here].
  all: right; split; [vm_compute; lia|]; rewrite sweep_scripts_eq.
  - apply list_elem_of_here.
  - apply list_elem_of_further, list_elem_of_here.
  - do 2 apply list_elem_of_further. apply list_elem_of_here.
Qed.

(** The PPO sanity script is an instance. *)
Lemma C4_witness :
  ppo_sanity ∈ repository ∧ calls_training ppo_sanity (λ _ _, 0).
Proof.
  assert (ppo_sanity ∈ repository) as H.
  { unfold repository. do 3 apply list_elem_of_further.
    apply list_elem_of_here. }
  split; [exact H | exact (C4_sequential_calls _ _ H)].
Defined.

(** *** What varies across the calls of a sweep *)

(** The flags whose value changes from one sweep point to the next. *)
Definition varying : list string := ["--exp_name"; "--prune_amount"].

(** [agree_but prev a b]: the command lines [a] and [b] are equal word by
    word, but for words that follow a flag of [varying]; [prev] is the word
    both had just before. *)
Fixpoint agree_but (prev : option string) (a b : list string) : bool :=
  match a, b with
  | [], [] => true
  | x :: a, y :: b =>
      if decide (x = y) then agree_but (Some x) a b
      else match prev with
           | Some f => bool_decide (f ∈ varying) && agree_but None a b
           | None => false
           end
  | _, _ => false
  end.

Definition differ_only_in_sweep_values (a b : list string) : Prop :=
  length a = length b ∧
  ∀ i x y, a !! i = Some x → b !! i = Some y → x ≠ y →
    ∃ j f, i = S j ∧ a !! j = Some f ∧ b !! j = Some f ∧ f ∈ varying.

Lemma agree_but_spec a : ∀ prev b,
  agree_but prev a b = true →
  length a = length b ∧
  ∀ i x y, a !! i = Some x → b !! i = Some y → x ≠ y →
    match i with
    | 0 => ∃ f, prev = Some f ∧ f ∈ varying
    | S j => ∃ f, a !! j = Some f ∧ b !! j = Some f ∧ f ∈ varying
    end.
Proof.
  induction a as [|x a IH]; intros prev [|y b] H; simpl in H; try done.
  case_decide as Hxy.
  - subst y. destruct (IH _ _ H) as [Hlen Hdiff].
    split; [simpl; congruence|].
    intros [|i] x' y' Hx Hy Hne; simpl in *; [congruence|].
    specialize (Hdiff i x' y' Hx Hy Hne). destruct i as [|i]; simpl.
    + destruct Hdiff as (f & [= <-] & Hf). eauto.
    + exact Hdiff.
  - destruct prev as [f|]; [|done].
    apply andb_prop in H as [Hf H]. apply bool_decide_eq_true_1 in Hf.
    destruct (IH _ _ H) as [Hlen Hdiff].
    split; [simpl; congruence|].
    intros [|i] x' y' Hx Hy Hne; simpl in *; [eauto|].
    specialize (Hdiff i x' y' Hx Hy Hne). destruct i as [|i]; simpl.
    + by destruct Hdiff as (? & ? & _).
    + exact Hdiff.
Qed.

Lemma agree_but_differ a b :
  agree_but None a b = true → differ_only_in_sweep_values a b.
Proof.
  intros [Hlen Hdiff]%agree_but_spec. split; [done|].
  intros i x y Hx Hy Hne. specialize (Hdiff i x y Hx Hy Hne).
  destruct i as [|j]; [by destruct Hdiff as (? & ? & _)|].
  destruct Hdiff as (f & ? & ? & ?). by exists j, f.
Qed.

Lemma pairwise_differ (L : list (list string)) :
  forallb (λ a, forallb (agree_but None a) L) L = true →
  ∀ a b, a ∈ L → b ∈ L → differ_only_in_sweep_values a b.
Proof.
  rewrite forallb_forall. intros H a b Ha%list_elem_of_In Hb%list_elem_of_In.
  specialize (H a Ha). rewrite forallb_forall in H.
  by apply agree_but_differ, H.
Qed.

Definition sweep_varies_two_values (s : script) (o : oracle) : Prop :=
  ∃ t, trace o s = Some t ∧
    (∀ a b, a ∈ invocations t → b ∈ invocations t →
            differ_only_in_sweep_values a b) ∧
    NoDup (flag_value "--exp_name" <$> invocations t) ∧
    NoDup (flag_value "--prune_amount" <$> invocations t).

(** C5.  In a sweep script any two calls of the training program have the
    same words at the same places, except the word after --exp_name and the
    word after --prune_amount; those two do change from call to call. *)
Theorem C5_only_name_and_amount_vary (s : script) (o : oracle) :
  s ∈ sweep_scripts → sweep_varies_two_values s o.
Proof.
  rewrite sweep_scripts_eq. intros Hs. unfold sweep_varies_two_values.
  by_cases Hs.
  all: eexists; split; [vm_compute; reflexivity|].
  all: split; [apply pairwise_differ; vm_compute; reflexivity|].
  all: split; refine (bool_decide_eq_true_1 _ _); vm_compute; reflexivity.
Qed.

(** The PPO random sweep is an instance. *)
Lemma C5_witness :
  ppo_random_test ∈ sweep_scripts ∧
  sweep_varies_two_values ppo_random_test (λ _ _, 0).
Proof.
  assert (ppo_random_test ∈ sweep_scripts) as H.
  { change (ppo_random_test
              ∈ [ppo_l1_sweep; dqn_random_sweep; ppo_random_test]).
    do 2 apply list_elem_of_further. apply list_elem_of_here. }
  split; [exact H | exact (C5_only_name_and_amount_vary _ _ H)].
Defined.

(** *** Failing runs *)

(** The fragment can stop on a failure and can inspect [$?]: with [set -e]
    in front, the first failing call of the PPO random sweep is the last
    thing the script does, and an [echo $?] shows the code. *)
Example errexit_stops_sweep :
  printed <$> trace (λ _ _, 1) (SetErrexit :: ppo_random_test)
  = Some ["Starting R 0.1"; "run_python_command"].
Proof. vm_compute. reflexivity. Qed.

Example status_is_visible :
  printed <$> trace (λ _ _, 2)
                [fg [Bare "false"]; fg [Bare "echo"; Param "?"]]
  = Some ["2"].
Proof. vm_compute. reflexivity. Qed.

(** The external program that always succeeds. *)
Definition all_succeed : oracle := λ _ _, 0.

Definition sweep_ignores_failures (s : script) : Prop :=
  checks_status s = false ∧
  ∀ o : oracle, ∃ t t0,
    trace o s = Some t ∧ trace all_succeed s = Some t0 ∧
    forget_code <$> t = forget_code <$> t0 ∧
    printed t = printed t0 ∧
    Forall2 (λ p argv, called_with p argv = true)
            (sweep_list s) (invocations t).

(** C6.  A sweep script has neither [set -e] nor [$?]; whichever of its
    calls fail, and with whatever codes, it prints the same lines and
    starts the same processes as when all succeed: one call per sweep
    point, in the order of the sweep list. *)
Theorem C6_failures_do_not_stop_sweep (s : script) :
  s ∈ sweep_scripts → sweep_ignores_failures s.
Proof.
  rewrite sweep_scripts_eq. intros Hs.
  assert (checks_status s = false) as Hblind
    by (by_cases Hs; reflexivity).
  split; [exact Hblind|]. intros o.
  pose proof (blind_trace o all_succeed s Hblind) as Hsame.
  assert (∃ t, trace o s = Some t ∧
               Forall2 (λ p argv, called_with p argv = true)
                       (sweep_list s) (invocations t)) as (t & Ht & Hcalls).
  { by_cases Hs;
      (eexists; split;
         [vm_compute; reflexivity | vm_compute; repeat constructor]). }
  assert (∃ t0, trace all_succeed s = Some t0) as (t0 & Ht0).
  { by_cases Hs; (eexists; vm_compute; reflexivity). }
  rewrite Ht, Ht0 in Hsame. simpl in Hsame. injection Hsame as Hsame.
  exists t, t0. repeat split; try done.
  by rewrite <- (printed_forget t), Hsame, printed_forget.
Qed.

(** The PPO L1 sweep is an instance. *)
Lemma C6_witness :
  ppo_l1_sweep ∈ sweep_scripts ∧ sweep_ignores_failures ppo_l1_sweep.
Proof.
  assert (ppo_l1_sweep ∈ sweep_scripts) as H.
  { change (ppo_l1_sweep
              ∈ [ppo_l1_sweep; dqn_random_sweep; ppo_random_test]).
    apply list_elem_of_here. }
  split; [exact H | exact (C6_failures_do_not_stop_sweep _ H)].
Defined.

(** *** One run at a time *)

(** The fragment can overlap runs: with [&] two processes run at once. *)
Example background_overlaps :
  (λ t, size (running t))
    <$> trace all_succeed [ Run (Simple [Bare "train"] true);
                            Run (Simple [Bare "train"] false) ]
  = Some 1 ∧
  (λ t, size (running (take 2 t)))
    <$> trace all_succeed [ Run (Simple [Bare "train"] true);
                            Run (Simple [Bare "train"] false) ]
  = Some 2.
Proof. split; vm_compute; reflexivity. Qed.

Definition one_at_a_time (s : script) (o : oracle) : Prop :=
  backgrounds s = false ∧
  ∃ t, trace o s = Some t ∧ sequential t ∧
       ∀ t1, t1 `prefix_of` t → size (running t1) ≤ 1.

(** C7.  No command of any script ends in [&]; in the trace of every script
    each process is waited for directly after it starts, so at every moment
    at most one process started by the script is running. *)
Theorem C7_one_run_at_a_time (s : script) (o : oracle) :
  s ∈ repository → one_at_a_time s o.
Proof.
  intros Hs.
  assert (backgrounds s = false) as Hfg
    by (unfold repository in Hs; by_cases Hs; reflexivity).
  assert (∃ t, trace o s = Some t) as [t Ht].
  { unfold repository in Hs.
    by_cases Hs; (eexists; vm_compute; reflexivity). }
  pose proof (foreground_sequential o s t Hfg Ht) as Hseq.
  split; [exact Hfg|]. exists t. split; [exact Ht|]. split; [exact Hseq|].
  intros t1 Hpre. by eapply sequential_running.
Qed.

(** scripts/baseline.sh is an instance. *)
Lemma C7_witness :
  baseline ∈ repository ∧ one_at_a_time baseline all_succeed.
Proof.
  assert (baseline ∈ repository) as H by apply list_elem_of_here.
  split; [exact H | exact (C7_one_run_at_a_time _ _ H)].
Defined.

(** *** Two particular sweep points *)

(** C9.  In the DQN random-pruning sweep the only call with pruning amount
    0.05 comes after the marker Starting R 0.05 and is followed by the
    marker Finished R 0.01: the two markers carry different labels. *)
Theorem C9_marker_mismatch (o : oracle) :
  ∃ t pid argv code,
    trace o dqn_random_sweep = Some t ∧
    t !! 0 = Some (Print "Starting R 0.05") ∧
    t !! 2 = Some (Spawn pid argv) ∧
    flag_value "--prune_amount" argv = Some "0.05" ∧
    t !! 3 = Some (Exit pid code) ∧
    t !! 4 = Some (Print "Finished R 0.01") ∧
    List.filter
      (λ a, bool_decide (flag_value "--prune_amount" a = Some "0.05"))
      (invocations t) = [argv] ∧
    label_of "Starting" (Print "Starting R 0.05")
      ≠ label_of "Finished" (Print "Finished R 0.01").
Proof.
  do 4 eexists. split; [vm_compute; reflexivity|].
  repeat split; try reflexivity. vm_compute. discriminate.
Qed.

(** C10.  In the PPO sweep with the default pruning method the first call,
    announced as Baseline and named Baseline, has --prune and
    --prune_amount 0; no call of that script has --prune_method. *)
Theorem C10_baseline_pruned_no_method (o : oracle) :
  ∃ t pid argv,
    trace o ppo_l1_sweep = Some t ∧
    t !! 0 = Some (Print "Starting Baseline") ∧
    t !! 2 = Some (Spawn pid argv) ∧
    flag_value "--exp_name" argv = Some "Baseline" ∧
    has_flag "--prune" argv = true ∧
    flag_value "--prune_amount" argv = Some "0" ∧
    (∀ a, a ∈ invocations t → has_flag "--prune_method" a = false).
Proof.
  do 3 eexists. split; [vm_compute; reflexivity|].
  repeat split; try reflexivity.
  intros a Ha.
  match type of Ha with
  | _ ∈ ?L => let L' := eval vm_compute in L in change L with L' in Ha
  end.
  by_cases Ha; reflexivity.
Qed.

(** ** The notebook *)

Module Notebook.

(** Python's [a / b] on numbers, as an exact quotient; [None] stands for
    ZeroDivisionError.  The rounding of the quotient to a float is not
    modelled. *)
Definition truediv (a b : Qc) : option Qc :=
  if decide (b = 0%Qc) then None else Some (a / b)%Qc.

Definition of_nat (n : nat) : Qc := Qc_of_Z (Z.of_nat n).

(** *** The sparsity cell *)

Section Sparsity.

(** Entries of a floating-point tensor.  The cell only tests them against
    zero. *)
Context {float : Type} (is_zero : float → bool).

Inductive tensor :=
| FloatTensor (data : list float)
| LongTensor (data : list Z).        (* torch.tensor([0]) is one of these *)

(** torch.sum(torch.eq(weight, 0)).item() *)
Definition sum_eq_zero (weight : tensor) : nat :=
  match weight with
  | FloatTensor d => length (List.filter is_zero d)
  | LongTensor d => length (List.filter (Z.eqb 0) d)
  end.

(** torch.count_nonzero(weight).item() *)
Definition count_nonzero (weight : tensor) : nat :=
  match weight with
  | FloatTensor d => length (List.filter (λ x, negb (is_zero x)) d)
  | LongTensor d => length (List.filter (λ x, negb (Z.eqb 0 x)) d)
  end.

(** A layer of [model.network]: an instance of nn.Linear with its weight,
    or any other module, with or without a weight of its own. *)
Inductive layer :=
| Linear (weight : tensor)
| NotLinear (weight : option tensor).

Definition isinstance_Linear (l : layer) : bool :=
  match l with
  | Linear _ => true
  | NotLinear _ => false
  end.

(** weights = [layer.weight if isinstance(layer, nn.Linear)
               else torch.tensor([0]) for layer in model.network] *)
Definition weights (network : list layer) : list tensor :=
  (λ l, match l with
        | Linear w => w
        | NotLinear _ => LongTensor [0%Z]
        end) <$> network.

(** zero_weights = sum([torch.sum(torch.eq(weight, 0)).item()
                        for weight in weights]) *)
Definition zero_weights (network : list layer) : nat :=
  sum_list (sum_eq_zero <$> weights network).

(** nonzero_weights = sum([torch.count_nonzero(weight).item()
                           for weight in weights]) *)
Definition nonzero_weights (network : list layer) : nat :=
  sum_list (count_nonzero <$> weights network).

(** zero_weights/(zero_weights+nonzero_weights) *)
Definition total_sparsity (network : list layer) : option Qc :=
  truediv (of_nat (zero_weights network))
          (of_nat (zero_weights network + nonzero_weights network)).

(** The same quantities as the description words them. *)
Definition linear_weights (network : list layer) : list tensor :=
  omap (λ l, match l with
             | Linear w => Some w
             | NotLinear _ => None
             end) network.

Definition zeros_in_linear (network : list layer) : nat :=
  sum_list (sum_eq_zero <$> linear_weights network).

Definition nonzeros_in_linear (network : list layer) : nat :=
  sum_list (count_nonzero <$> linear_weights network).

Definition non_linear_layers (network : list layer) : nat :=
  length (List.filter (λ l, negb (isinstance_Linear l)) network).

Lemma zero_weights_split network :
  zero_weights network = zeros_in_linear network + non_linear_layers network.
Proof.
  unfold zero_weights, zeros_in_linear, non_linear_layers, weights,
    linear_weights.
  induction network as [|[w|w] network IH]; csimpl; [done| |]; lia.
Qed.

Lemma nonzero_weights_linear network :
  nonzero_weights network = nonzeros_in_linear network.
Proof.
  unfold nonzero_weights, nonzeros_in_linear, weights, linear_weights.
  induction network as [|[w|w] network IH]; csimpl; [done| |]; lia.
Qed.

(** C8.  The zero count is the number of zero entries of the weights of the
    Linear layers plus one for every layer that is not Linear; the nonzero
    count is the number of nonzero entries of the weights of the Linear
    layers; the sparsity is the quotient of the first by the sum of both
    (and raises when that sum is zero). *)
Theorem C8_sparsity_counts (network : list layer) :
  zero_weights network = zeros_in_linear network + non_linear_layers network ∧
  nonzero_weights network = nonzeros_in_linear network ∧
  total_sparsity network
  = truediv (of_nat (zeros_in_linear network + non_linear_layers network))
            (of_nat (zeros_in_linear network + non_linear_layers network
                     + nonzeros_in_linear network)).
Proof.
  split; [apply zero_weights_split|].
  split; [apply nonzero_weights_linear|].
  unfold total_sparsity.
  by rewrite zero_weights_split, nonzero_weights_linear.
Qed.

End Sparsity.

(** A small network, with integers for the float entries: the weight of the
    layer that is not Linear is not counted, the layer itself counts as one
    zero. *)
Example sparsity_small :
  let network := [ NotLinear (Some (FloatTensor [0; 0; 5]%Z));
                   Linear (FloatTensor [0; 1; 2; 0]%Z);
                   NotLinear None ] in
  zero_weights (Z.eqb 0) network = 4 ∧
  nonzero_weights (Z.eqb 0) network = 2 ∧
  this <$> total_sparsity (Z.eqb 0) network = Some (2 # 3)%Q.
Proof. repeat split; vm_compute; reflexivity. Qed.

(** *** The code cells as syntax *)

Inductive expr :=
| Name (id : string)
| Str (s : string)
| Num (n : Z)
| FloatLit (digits : string)                   (* 0.05 *)
| BoolLit (b : bool)
| Attribute (value : expr) (attr : string)     (* value.attr *)
| Call (func : expr) (args : list expr) (keywords : list (string * expr))
| BinOp (left : expr) (op : string) (right : expr)
| IfExp (body test orelse : expr)              (* body if test else orelse *)
| ListLit (elts : list expr)
| ListComp (elt : expr) (target : string) (iter : expr)
| JoinedStr (values : list expr)               (* f'...' *)
| FormattedValue (value : expr).               (* {value} inside f'...' *)

Inductive stmt :=
| ImportAs (module : string) (asname : option string)
| ImportFrom (module : string) (names : list string)
| AssignTo (target : string) (value : expr)
| Expr (value : expr).

Definition call (f : expr) (args : list expr) : expr := Call f args [].
Definition dot (x a : string) : expr := Attribute (Name x) a.

Definition cell_imports : list stmt :=
  [ ImportAs "torch" None;
    ImportAs "torch.nn" (Some "nn");
    ImportAs "gymnasium" (Some "gym");
    ImportFrom "src.cleanrl_utils.evals.dqn_eval" ["evaluate"];
    ImportFrom "src.cleanrl.dqn_atari" ["QNetwork"; "make_env"] ].

Definition cell_parameters : list stmt :=
  [ AssignTo "device"
      (call (dot "torch" "device")
         [ IfExp (Str "cuda")
                 (call (Attribute (dot "torch" "cuda") "is_available") [])
                 (Str "cpu") ]);
    AssignTo "env_id" (Str "SpaceInvadersNoFrameskip-v4");
    AssignTo "envs"
      (call (Attribute (dot "gym" "vector") "SyncVectorEnv")
         [ ListLit [ call (Name "make_env")
                       [ Name "env_id"; Num 0; Num 0; BoolLit false;
                         Str EmptyString ] ] ]);
    AssignTo "model"
      (call (Attribute (call (Name "QNetwork") [Name "envs"]) "to")
         [Name "device"]);
    AssignTo "model_path" (Str "models/0.5_sparsity_dqn.cleanrl_model");
    Expr (call (dot "model" "load_state_dict")
            [ Call (dot "torch" "load") [Name "model_path"]
                   [("map_location", Name "device")] ]);
    Expr (call (Name "print")
            [ JoinedStr [Str "Device: "; FormattedValue (Name "device")] ]) ].

Definition sparsity_expression : expr :=
  BinOp (Name "zero_weights") "/"
        (BinOp (Name "zero_weights") "+" (Name "nonzero_weights")).

Definition cell_sparsity : list stmt :=
  [ AssignTo "weights"
      (ListComp
         (IfExp (dot "layer" "weight")
                (call (Name "isinstance") [Name "layer"; dot "nn" "Linear"])
                (call (dot "torch" "tensor") [ListLit [Num 0]]))
         "layer" (dot "model" "network"));
    AssignTo "zero_weights"
      (call (Name "sum")
         [ ListComp
             (call (Attribute
                      (call (dot "torch" "sum")
                         [call (dot "torch" "eq") [Name "weight"; Num 0]])
                      "item") [])
             "weight" (Name "weights") ]);
    AssignTo "nonzero_weights"
      (call (Name "sum")
         [ ListComp
             (call (Attribute
                      (call (dot "torch" "count_nonzero") [Name "weight"])
                      "item") [])
             "weight" (Name "weights") ]);
    Expr (call (Name "print") [Str "Zero weights:"; Name "zero_weights"]);
    Expr (call (Name "print")
            [Str "Nonzero weights:"; Name "nonzero_weights"]);
    Expr (call (Name "print")
            [Str "Total sparsity:"; sparsity_expression]) ].

Definition cell_evaluate : list stmt :=
  [ AssignTo "episodic_returns"
      (Call (Name "evaluate")
         [ Name "model_path"; Name "make_env"; Name "env_id" ]
         [ ("eval_episodes", Num 5);
           ("run_name", Str "dqn_eval");
           ("Model", Name "QNetwork");
           ("device", Name "device");
           ("epsilon", FloatLit "0.05") ]) ].

Definition mean_expression : expr :=
  BinOp (call (Name "sum") [Name "episodic_returns"]) "/"
        (call (Name "len") [Name "episodic_returns"]).

Definition cell_mean : list stmt :=
  [ Expr (call (Name "print")
            [ JoinedStr [ Str "Mean episodic return of 0.5 sparsity dqn: ";
                          FormattedValue mean_expression ] ]) ].

(** The code cells of project.ipynb, in order. *)
Definition notebook : list (list stmt) :=
  [ cell_imports; cell_parameters; cell_sparsity; cell_evaluate; cell_mean ].

(** Every expression that occurs in an expression, itself included. *)
Fixpoint subexprs (e : expr) : list expr :=
  e :: match e with
       | Name _ | Str _ | Num _ | FloatLit _ | BoolLit _ => []
       | Attribute v _ => subexprs v
       | Call f args kws =>
           subexprs f ++ flat_map subexprs args
           ++ flat_map (λ kw, match kw with (_, v) => subexprs v end) kws
       | BinOp l _ r => subexprs l ++ subexprs r
       | IfExp b t o => subexprs b ++ subexprs t ++ subexprs o
       | ListLit es => flat_map subexprs es
       | ListComp e _ it => subexprs e ++ subexprs it
       | JoinedStr vs => flat_map subexprs vs
       | FormattedValue v => subexprs v
       end.

Definition stmt_exprs (s : stmt) : list expr :=
  match s with
  | AssignTo _ v | Expr v => subexprs v
  | _ => []
  end.

(** The calls of the function named [f]: positional and keyword
    arguments of each. *)
Definition calls_of (f : string) (code : list stmt)
    : list (list expr * list (string * expr)) :=
  omap (λ e, match e with
             | Call (Name g) args kws =>
                 if decide (g = f) then Some (args, kws) else None
             | _ => None
             end) (flat_map stmt_exprs code).

(** The values a name is assigned, and the modules it is imported from. *)
Definition assigned (x : string) (code : list stmt) : list expr :=
  omap (λ s, match s with
             | AssignTo y v => if decide (x = y) then Some v else None
             | _ => None
             end) code.

Definition imported_from (x : string) (code : list stmt) : list string :=
  omap (λ s, match s with
             | ImportFrom m names =>
                 if bool_decide (x ∈ names) then Some m else None
             | _ => None
             end) code.

(** Whether an expression reads the name [x]. *)
Definition mentions (x : string) (e : expr) : bool :=
  existsb (λ e, match e with
                | Name y => bool_decide (x = y)
                | _ => false
                end) (subexprs e).

(** The statements of a piece of code that read the name [x]. *)
Definition readers (x : string) (code : list stmt) : list stmt :=
  List.filter (λ s, match s with
                    | AssignTo _ v | Expr v => mentions x v
                    | _ => false
                    end) code.

(** *** The arithmetic of the printed statistics *)

Inductive value :=
| VNum (q : Qc)
| VList (xs : list Qc).

Definition total (xs : list Qc) : Qc := foldr Qcplus 0%Qc xs.

(** Evaluation of the expressions the two statistics are printed with:
    names, integer literals, [sum] and [len] of a list, [+] and [/]. *)
Fixpoint eval (ρ : string → option value) (e : expr) : option value :=
  match e with
  | Name x => ρ x
  | Num n => Some (VNum (Qc_of_Z n))
  | Call (Name f) [a] [] =>
      match eval ρ a with
      | Some (VList xs) =>
          if decide (f = "sum") then Some (VNum (total xs))
          else if decide (f = "len") then Some (VNum (of_nat (length xs)))
          else None
      | _ => None
      end
  | BinOp l op r =>
      match eval ρ l, eval ρ r with
      | Some (VNum a), Some (VNum b) =>
          if decide (op = "+") then Some (VNum (a + b)%Qc)
          else if decide (op = "/") then VNum <$> truediv a b
          else None
      | _, _ => None
      end
  | _ => None
  end.

Definition bind (x : string) (v : value) : string → option value :=
  λ y, if decide (y = x) then Some v else None.

(** sum(episodic_returns)/len(episodic_returns) *)
Definition mean (episodic_returns : list Qc) : option Qc :=
  truediv (total episodic_returns) (of_nat (length episodic_returns)).

Lemma eval_mean_expression (episodic_returns : list Qc) :
  eval (bind "episodic_returns" (VList episodic_returns)) mean_expression
  = VNum <$> mean episodic_returns.
Proof. reflexivity. Qed.

(** The five returns recorded in the notebook's output and their printed
    mean. *)
Example mean_recorded :
  this <$> mean (Qc_of_Z <$> [465; 435; 350; 700; 470]%Z) = Some (484 # 1)%Q.
Proof. vm_compute. reflexivity. Qed.

Example mean_of_nothing : mean [] = None.
Proof. reflexivity. Qed.

Definition counts (zero nonzero : nat) : string → option value :=
  λ y, if decide (y = "zero_weights") then Some (VNum (of_nat zero))
       else if decide (y = "nonzero_weights") then Some (VNum (of_nat nonzero))
       else None.

Lemma of_nat_add (a b : nat) : of_nat (a + b) = (of_nat a + of_nat b)%Qc.
Proof. unfold of_nat. by rewrite Nat2Z.inj_add, Z2Qc_inj_add. Qed.

(** The expression the sparsity cell prints computes [total_sparsity]. *)
Lemma eval_sparsity_expression {float : Type} (is_zero : float → bool)
    (network : list (layer (float:=float))) :
  eval (counts (zero_weights is_zero network)
               (nonzero_weights is_zero network)) sparsity_expression
  = VNum <$> total_sparsity is_zero network.
Proof.
  unfold total_sparsity. rewrite of_nat_add. reflexivity.
Qed.

(** The whole code of the notebook. *)
Definition code : list stmt := concat notebook.

(** C3.  The notebook calls [evaluate], imported from cleanrl's dqn_eval
    module, exactly once, with three positional arguments (the model path,
    make_env, the environment id) and five keyword arguments (episode
    count, run name, model class, device, epsilon) and nothing else; the
    result is assigned to episodic_returns, which is read only by the
    statement that prints sum(episodic_returns)/len(episodic_returns),
    whose value is the sum of the returns divided by their number. *)
Theorem C3_evaluate_call :
  calls_of "evaluate" code =
    [ ([ Name "model_path"; Name "make_env"; Name "env_id" ],
       [ ("eval_episodes", Num 5); ("run_name", Str "dqn_eval");
         ("Model", Name "QNetwork"); ("device", Name "device");
         ("epsilon", FloatLit "0.05") ]) ] ∧
  imported_from "evaluate" code = ["src.cleanrl_utils.evals.dqn_eval"] ∧
  assigned "model_path" code = [Str "models/0.5_sparsity_dqn.cleanrl_model"] ∧
  imported_from "make_env" code = ["src.cleanrl.dqn_atari"] ∧
  assigned "env_id" code = [Str "SpaceInvadersNoFrameskip-v4"] ∧
  imported_from "QNetwork" code = ["src.cleanrl.dqn_atari"] ∧
  (∃ arg, assigned "device" code = [call (dot "torch" "device") [arg]]) ∧
  (∃ args keywords,
     cell_evaluate
     = [AssignTo "episodic_returns" (Call (Name "evaluate") args keywords)]) ∧
  assigned "episodic_returns" code
  = omap (λ s, match s with
               | AssignTo _ v => Some v
               | _ => None
               end) cell_evaluate ∧
  readers "episodic_returns" code
  = [ Expr (call (Name "print")
              [ JoinedStr
                  [ Str "Mean episodic return of 0.5 sparsity dqn: ";
                    FormattedValue mean_expression ] ]) ] ∧
  ∀ episodic_returns : list Qc,
    eval (bind "episodic_returns" (VList episodic_returns)) mean_expression
    = VNum <$> truediv (total episodic_returns)
                       (of_nat (length episodic_returns)).
Proof.
  repeat split; try reflexivity.
  - eexists. reflexivity.
  - do 2 eexists. reflexivity.
Qed.

End Notebook.

(** ** The function [run_python_command] on arbitrary arguments *)

Module Calls.
Import Sh Scripts Obs Facts.

(** *** Field splitting *)







Lemma split_fields_empty : split_fields EmptyString = [].
Proof. reflexivity. Qed.

(** *** Calling the function a script defines *)

(** The assignments and the function definition of a script. *)
Definition definitions (s : script) : script :=
  List.filter (λ c, match c with
                    | Assign _ _ | FunDef _ _ => true
                    | _ => false
                    end) s.

(** run_python_command "arg1" "arg2" ..., after the script's definitions. *)
Definition run_function (o : oracle) (s : script) (arguments : list string)
    : option (list event) :=
  trace o (definitions s
           ++ [fg (Bare "run_python_command" :: (DQuote <$> arguments))]).

(** The command line the function starts when it is given no argument. *)
Definition command_template (s : script) : list string :=
  match run_function all_succeed s [] with
  | Some (Spawn _ argv :: _) => argv
  | _ => []
  end.

(** [put f vs argv]: the words [vs] placed after the first [f] of [argv]. *)
Fixpoint put (f : string) (vs argv : list string) : list string :=
  match argv with
  | [] => []
  | w :: rest =>
      if decide (w = f) then w :: vs ++ rest else w :: put f vs rest
  end.

(** The scripts whose function takes the experiment name and the amount. *)
Definition with_arguments : list script :=
  [ppo_l1_sweep; dqn_random_sweep; ppo_sanity; ppo_random_test].

Definition one_run (o : oracle) (argv : list string) : list event :=
  [Spawn 0 argv; Exit 0 (o 0 argv)].

Definition fields_inserted (s : script) (o : oracle) (e a : string) : Prop :=
  run_function o s [e; a]
  = Some (one_run o (put "--exp_name" (split_fields e)
                       (put "--prune_amount" (split_fields a)
                            (command_template s)))).

Lemma run_function_put (s : script) (o : oracle) (e a : string) :
  s ∈ with_arguments → fields_inserted s o e a.
Proof.
  intros Hs. unfold with_arguments in Hs. unfold fields_inserted.
  by_cases Hs.
  all: vm_compute; reflexivity.
Qed.



(** *** Arguments that are one word each *)









(** *** A name with a space in it *)




(** *** Missing and blank arguments *)

Fixpoint blank (s : string) : bool :=
  match s with
  | EmptyString => true
  | String a s => is_ifs a && blank s
  end.

Lemma split_fields_blank s : blank s = true → split_fields s = [].
Proof.
  unfold split_fields. induction s as [|c s IH]; simpl; [done|].
  intros [Hc Hs]%andb_prop. rewrite Hc. simpl. by apply IH.
Qed.

Lemma put_nothing f argv : put f [] argv = argv.
Proof.
  induction argv as [|w rest IH]; simpl; [done|].
  case_decide; [done | by rewrite IH].
Qed.

Definition values_vanish (s : script) (o : oracle) (e a : string) : Prop :=
  run_function o s [e; a] = run_function o s [] ∧
  run_function o s [] = Some (one_run o (command_template s)) ∧
  flag_value "--exp_name" (command_template s) = None ∧
  flag_value "--prune_amount" (command_template s) = None.

(** X4.  An argument that is missing, empty or made of white space leaves
    no word on the command line: the call is the call without arguments, in
    which --exp_name is directly followed by the next flag and
    --prune_amount has no value either. *)
Theorem blank_arguments_vanish (s : script) (o : oracle) (e a : string) :
  s ∈ with_arguments → blank e = true → blank a = true →
  values_vanish s o e a.
Proof.
  intros Hs He Ha.
  assert (run_function o s [] = Some (one_run o (command_template s))) as H0.
  { unfold with_arguments in Hs. by_cases Hs; vm_compute; reflexivity. }
  split; [|split; [exact H0|]].
  - rewrite (run_function_put s o e a Hs), H0.
    by rewrite (split_fields_blank e He), (split_fields_blank a Ha),
         !put_nothing.
  - unfold with_arguments in Hs. by_cases Hs; split; reflexivity.
Qed.

Lemma blank_arguments_witness :
  dqn_random_sweep ∈ with_arguments ∧
  values_vanish dqn_random_sweep all_succeed EmptyString " ".
Proof.
  assert (dqn_random_sweep ∈ with_arguments) as H.
  { unfold with_arguments. apply list_elem_of_further, list_elem_of_here. }
  split; [exact H|].
  exact (blank_arguments_vanish _ all_succeed EmptyString " " H
           eq_refl eq_refl).
Defined.

End Calls.

(** ** What holds of every command line in the repository *)

Module Lines.
Import Sh Scripts Obs Facts Calls.

Ltac compute_members H :=
  match type of H with
  | _ ∈ ?L => let L' := eval vm_compute in L in change L with L' in H
  end.

Definition calls_are_function_results (s : script) (o : oracle) : Prop :=
  ∃ t, trace o s = Some t ∧
    invocations t
    = (λ p, put "--exp_name" [p.1]
              (put "--prune_amount" [p.2] (command_template s)))
        <$> sweep_list s.

(** X6.  The command lines a script starts are, in order, what its function
    gives for the pairs of its sweep list: the command line of the call
    without arguments with the name after --exp_name and the amount after
    --prune_amount. *)
Theorem script_calls_are_function_results (s : script) (o : oracle) :
  s ∈ with_arguments → calls_are_function_results s o.
Proof.
  intros Hs. unfold with_arguments in Hs. by_cases Hs.
  all: eexists; split; [vm_compute; reflexivity|].
  all: vm_compute; reflexivity.
Qed.

Lemma script_calls_witness :
  ppo_random_test ∈ with_arguments ∧
  calls_are_function_results ppo_random_test all_succeed.
Proof.
  assert (ppo_random_test ∈ with_arguments) as H.
  { unfold with_arguments. do 3 apply list_elem_of_further.
    apply list_elem_of_here. }
  split; [exact H | exact (script_calls_are_function_results _ _ H)].
Defined.

(** A command line of the DQN entry point, with its replay buffer size, or
    of the PPO entry point, which has none. *)
Definition launches (argv : list string) : Prop :=
  take 3 argv = [poetry; "run"; "python"] ∧
  ((argv !! 3 = Some "cleanrl/dqn_atari.py" ∧
    flag_value "--buffer_size" argv = Some "100000") ∨
   (argv !! 3 = Some "cleanrl/ppo_atari.py" ∧
    has_flag "--buffer_size" argv = false)) ∧
  flag_value "--env-id" argv = Some env_id ∧
  has_flag "--capture_video" argv = true ∧
  has_flag "--save_model" argv = true ∧
  has_flag "--track" argv = true.

Definition every_line (P : list string → Prop) (s : script) (o : oracle)
    : Prop :=
  ∃ t, trace o s = Some t ∧ ∀ argv, argv ∈ invocations t → P argv.

(** X7.  Every command line of every script runs python through poetry on one
    of the two entry points, on SpaceInvadersNoFrameskip-v4, with video
    capture, model saving and tracking on; --buffer_size 100000 is passed
    to the DQN entry point and never to the PPO one. *)
Theorem every_line_launches (s : script) (o : oracle) :
  s ∈ repository → every_line launches s o.
Proof.
  intros Hs. unfold repository in Hs. by_cases Hs.
  all: eexists; split; [vm_compute; reflexivity|].
  all: intros argv Hargv; compute_members Hargv; by_cases Hargv.
  all: split; [reflexivity|].
  all: split; [first [left; split; reflexivity | right; split; reflexivity]|].
  all: repeat split; reflexivity.
Qed.

Lemma every_line_launches_witness :
  ppo_l1_sweep ∈ repository ∧ every_line launches ppo_l1_sweep all_succeed.
Proof.
  assert (ppo_l1_sweep ∈ repository) as H.
  { unfold repository. apply list_elem_of_further, list_elem_of_here. }
  split; [exact H | exact (every_line_launches _ _ H)].
Defined.

(** The flags that come with pruning. *)
Definition pruning_flags_agree (argv : list string) : Prop :=
  has_flag "--exp_name" argv = has_flag "--prune" argv ∧
  has_flag "--prune_amount" argv = has_flag "--prune" argv ∧
  has_flag "--total_timesteps" argv = has_flag "--prune" argv ∧
  (has_flag "--prune_method" argv = true →
   has_flag "--prune" argv = true ∧
   flag_value "--prune_method" argv = Some "random").

(** X8.  On every command line of every script --prune, --prune_amount,
    --exp_name and --total_timesteps occur together or not at all, and
    --prune_method occurs only with --prune and only with the value
    random. *)
Theorem pruning_flags_come_together (s : script) (o : oracle) :
  s ∈ repository → every_line pruning_flags_agree s o.
Proof.
  intros Hs. unfold repository in Hs. by_cases Hs.
  all: eexists; split; [vm_compute; reflexivity|].
  all: intros argv Hargv; compute_members Hargv; by_cases Hargv.
  all: split; [reflexivity|]; split; [reflexivity|]; split; [reflexivity|].
  all: intros Hm;
       first [split; reflexivity | vm_compute in Hm; discriminate].
Qed.

Lemma pruning_flags_witness :
  baseline ∈ repository ∧
  every_line pruning_flags_agree baseline all_succeed.
Proof.
  assert (baseline ∈ repository) as H by apply list_elem_of_here.
  split; [exact H | exact (pruning_flags_come_together _ _ H)].
Defined.

(** The experiment names of all the runs of all the scripts. *)
Definition experiment_names (o : oracle) : list string :=
  s ← repository;
  omap (flag_value "--exp_name") (default [] (invocations <$> trace o s)).

(** X9.  The thirteen named runs of the repository have thirteen different
    experiment names: no script starts a run under a name that it or
    another script also uses. *)
Theorem experiment_names_distinct (o : oracle) :
  length (experiment_names o) = 13 ∧ NoDup (experiment_names o).
Proof.
  assert (experiment_names o = experiment_names all_succeed) as ->
    by (vm_compute; reflexivity).
  split; [reflexivity|].
  refine (bool_decide_eq_true_1 _ _). vm_compute. reflexivity.
Qed.

End Lines.

(** ** The statistics of the notebook *)

Module Statistics.
Import Notebook.

Local Open Scope Qc_scope.

(** *** Quotients *)

Lemma of_nat_zero (n : nat) : of_nat n = 0 ↔ n = 0%nat.
Proof.
  unfold of_nat. rewrite <- Z2Qc_inj_0, Z2Qc_inj_iff.
  split; [|by intros ->]. intros H. destruct n; [done | discriminate H].
Qed.

Lemma of_nat_le (a b : nat) : (a ≤ b)%nat → of_nat a ≤ of_nat b.
Proof.
  intros H. unfold of_nat. apply (proj1 (Z2Qc_inj_le _ _)). lia.
Qed.

Lemma of_nat_pos (n : nat) : n ≠ 0%nat → 0 < of_nat n.
Proof.
  intros H. unfold of_nat. rewrite <- Z2Qc_inj_0.
  apply (proj1 (Z2Qc_inj_lt _ _)). lia.
Qed.

Lemma of_nat_mul (a b : nat) : of_nat (a * b) = of_nat a * of_nat b.
Proof. unfold of_nat. by rewrite Nat2Z.inj_mul, Z2Qc_inj_mul. Qed.

Lemma truediv_none (a b : Qc) : truediv a b = None ↔ b = 0.
Proof. unfold truediv. case_decide; naive_solver. Qed.

Lemma truediv_some (a b q : Qc) :
  truediv a b = Some q → b ≠ 0 ∧ q * b = a.
Proof.
  unfold truediv. case_decide; [done|]. intros [= <-]. split; [done|].
  rewrite Qcmult_comm. by apply Qcmult_div_r.
Qed.

(** A quotient of counts [a / (a + b)] lies between 0 and 1. *)
Lemma share_bounds (a b : nat) (q : Qc) :
  truediv (of_nat a) (of_nat (a + b)) = Some q → 0 ≤ q ∧ q ≤ 1.
Proof.
  intros [Hd Hq]%truediv_some.
  assert (0 < of_nat (a + b)) as Hpos.
  { apply of_nat_pos. by rewrite <- of_nat_zero. }
  split; apply (Qcmult_lt_0_le_reg_r _ _ _ Hpos); rewrite Hq.
  - rewrite Qcmult_0_l, <- (proj2 (of_nat_zero 0%nat) eq_refl).
    apply of_nat_le. lia.
  - rewrite Qcmult_1_l. apply of_nat_le. lia.
Qed.

(** Cross multiplication of two quotients of counts. *)
Lemma quotient_le (a b c d : nat) (t r : Qc) :
  truediv (of_nat a) (of_nat b) = Some t →
  truediv (of_nat c) (of_nat d) = Some r →
  (a * d ≤ c * b)%nat → t ≤ r.
Proof.
  intros [Hb Ht]%truediv_some [Hd Hr]%truediv_some Hle.
  assert (0 < of_nat b * of_nat d) as Hpos.
  { apply Qcmult_pos_pos; apply of_nat_pos; by rewrite <- of_nat_zero. }
  apply (Qcmult_lt_0_le_reg_r _ _ _ Hpos).
  replace (t * (of_nat b * of_nat d)) with (t * of_nat b * of_nat d)
    by ring.
  replace (r * (of_nat b * of_nat d)) with (r * of_nat d * of_nat b)
    by ring.
  rewrite Ht, Hr, <- !of_nat_mul. by apply of_nat_le.
Qed.

Section Sparsity.

Context {float : Type} (is_zero : float → bool).

#[local] Abbreviation tensor := (tensor (float:=float)).
#[local] Abbreviation layer := (layer (float:=float)).

(** The number of entries of a tensor. *)
Definition numel (w : tensor) : nat :=
  match w with
  | FloatTensor d => length d
  | LongTensor d => length d
  end.

Lemma filter_partition {A} (p : A → bool) (l : list A) :
  (length (List.filter p l) + length (List.filter (λ x, negb (p x)) l)
   = length l)%nat.
Proof.
  induction l as [|x l IH]; simpl; [done|].
  destruct (p x); simpl; lia.
Qed.

Lemma entry_counted_once (w : tensor) :
  (sum_eq_zero is_zero w + count_nonzero is_zero w = numel w)%nat.
Proof. destruct w; simpl; apply filter_partition. Qed.

Definition linear_entries (network : list layer) : nat :=
  sum_list (numel <$> linear_weights network).

Lemma linear_counts_partition (network : list layer) :
  (zeros_in_linear is_zero network + nonzeros_in_linear is_zero network
   = linear_entries network)%nat.
Proof.
  unfold zeros_in_linear, nonzeros_in_linear, linear_entries, linear_weights.
  induction network as [|[w|w] network IH]; csimpl; [done| |done].
  pose proof (entry_counted_once w). lia.
Qed.

(** X10.  The two counts of the sparsity cell add up to the number of entries of
    the weights of the Linear layers plus the number of other layers: every
    entry counted is counted once, as zero or as nonzero, whatever the test
    against zero does on special values. *)
Theorem counts_add_up (network : list layer) :
  (zero_weights is_zero network + nonzero_weights is_zero network
   = linear_entries network + non_linear_layers network)%nat.
Proof.
  rewrite zero_weights_split, nonzero_weights_linear.
  pose proof (linear_counts_partition network). lia.
Qed.

(** X11.  The division of the sparsity cell raises ZeroDivisionError exactly
    when the network has no layer other than Linear ones and their weights
    have no entry at all; an empty network is such a case. *)
Theorem sparsity_raises_iff (network : list layer) :
  total_sparsity is_zero network = None
  ↔ non_linear_layers network = 0%nat ∧ linear_entries network = 0%nat.
Proof.
  unfold total_sparsity. rewrite truediv_none, of_nat_zero, counts_add_up.
  lia.
Qed.

(** X12.  When the sparsity cell prints a sparsity, it is between 0 and 1. *)
Theorem sparsity_bounds (network : list layer) (q : Qc) :
  total_sparsity is_zero network = Some q → 0 ≤ q ∧ q ≤ 1.
Proof. apply share_bounds. Qed.

(** The share of zero entries among the weights of the Linear layers. *)
Definition linear_sparsity (network : list layer) : option Qc :=
  truediv (of_nat (zeros_in_linear is_zero network))
          (of_nat (zeros_in_linear is_zero network
                   + nonzeros_in_linear is_zero network)).

(** X13.  The sparsity the cell prints is never below the share of zeros among
    the weights of the Linear layers: the placeholder zeros of the other
    layers can only raise it. *)
Theorem sparsity_not_below_linear (network : list layer) (t r : Qc) :
  linear_sparsity network = Some t →
  total_sparsity is_zero network = Some r →
  t ≤ r.
Proof.
  unfold linear_sparsity, total_sparsity.
  rewrite zero_weights_split, nonzero_weights_linear.
  intros Ht Hr. apply (quotient_le _ _ _ _ _ _ Ht Hr). nia.
Qed.

(** X14.  Without layers other than Linear ones the printed sparsity is
    the share of zeros among the weights of the Linear layers. *)
Theorem sparsity_exact_when_all_linear (network : list layer) :
  non_linear_layers network = 0%nat →
  total_sparsity is_zero network = linear_sparsity network.
Proof.
  intros H. unfold linear_sparsity, total_sparsity.
  rewrite zero_weights_split, nonzero_weights_linear, H.
  by rewrite Nat.add_0_r.
Qed.

Lemma no_linear_counts (network : list layer) :
  Forall (λ l, isinstance_Linear l = false) network →
  zero_weights is_zero network = length network ∧
  nonzero_weights is_zero network = 0%nat.
Proof.
  unfold zero_weights, nonzero_weights, weights.
  induction 1 as [|[w|w] network Hl _ [IH1 IH2]]; csimpl; [done|done|].
  rewrite IH1, IH2. done.
Qed.

(** X15.  A network with at least one layer and no Linear layer is reported as
    fully sparse, whatever its weights are. *)
Theorem sparsity_one_without_linear (network : list layer) :
  network ≠ [] →
  Forall (λ l, isinstance_Linear l = false) network →
  total_sparsity is_zero network = Some 1.
Proof.
  intros Hne [Hz Hnz]%no_linear_counts. unfold total_sparsity.
  rewrite Hz, Hnz, Nat.add_0_r. unfold truediv.
  assert (of_nat (length network) ≠ 0) as Hd.
  { rewrite of_nat_zero. by destruct network. }
  rewrite decide_False by done. f_equal. by apply Qcmult_inv_r.
Qed.

End Sparsity.

(** Small networks with integer entries, for the statements above. *)
Definition mixed_network : list (Notebook.layer (float:=Z)) :=
  [ NotLinear (Some (FloatTensor [0; 7]%Z));
    Linear (FloatTensor [0; 1; 2; 0]%Z) ].

Definition linear_network : list (Notebook.layer (float:=Z)) :=
  [ Linear (FloatTensor [0; 1; 2; 0]%Z); Linear (FloatTensor [5]%Z) ].

Definition activation_network : list (Notebook.layer (float:=Z)) :=
  [ NotLinear None; NotLinear (Some (FloatTensor [3; 4]%Z)) ].

Lemma sparsity_bounds_witness :
  total_sparsity (Z.eqb 0) mixed_network = Some (of_nat 3 / of_nat 5) ∧
  0 ≤ of_nat 3 / of_nat 5 ∧ of_nat 3 / of_nat 5 ≤ 1.
Proof.
  assert (total_sparsity (Z.eqb 0) mixed_network
          = Some (of_nat 3 / of_nat 5)) as H by (vm_compute; reflexivity).
  split; [exact H | exact (sparsity_bounds _ _ _ H)].
Defined.

Lemma sparsity_not_below_linear_witness :
  linear_sparsity (Z.eqb 0) mixed_network = Some (of_nat 2 / of_nat 4) ∧
  total_sparsity (Z.eqb 0) mixed_network = Some (of_nat 3 / of_nat 5) ∧
  of_nat 2 / of_nat 4 ≤ of_nat 3 / of_nat 5.
Proof.
  assert (linear_sparsity (Z.eqb 0) mixed_network
          = Some (of_nat 2 / of_nat 4)) as H1 by (vm_compute; reflexivity).
  assert (total_sparsity (Z.eqb 0) mixed_network
          = Some (of_nat 3 / of_nat 5)) as H2 by (vm_compute; reflexivity).
  split; [exact H1|]. split; [exact H2|].
  exact (sparsity_not_below_linear _ _ _ _ H1 H2).
Defined.

Lemma sparsity_exact_witness :
  non_linear_layers linear_network = 0%nat ∧
  total_sparsity (Z.eqb 0) linear_network
  = linear_sparsity (Z.eqb 0) linear_network.
Proof.
  split; [reflexivity|].
  exact (sparsity_exact_when_all_linear (Z.eqb 0) linear_network eq_refl).
Defined.

Lemma sparsity_one_witness :
  activation_network ≠ [] ∧
  Forall (λ l, isinstance_Linear l = false) activation_network ∧
  total_sparsity (Z.eqb 0) activation_network = Some 1.
Proof.
  assert (activation_network ≠ []) as H1 by discriminate.
  assert (Forall (λ l, isinstance_Linear l = false) activation_network)
    as H2 by (repeat constructor).
  split; [exact H1|]. split; [exact H2|].
  exact (sparsity_one_without_linear (Z.eqb 0) _ H1 H2).
Defined.

(** *** The mean of the episodic returns *)



(** X16.  The mean cell raises ZeroDivisionError exactly when the evaluation
    returned no episode. *)
Theorem mean_raises_iff (episodic_returns : list Qc) :
  mean episodic_returns = None ↔ episodic_returns = [].
Proof.
  unfold mean. rewrite truediv_none, of_nat_zero.
  destruct episodic_returns; naive_solver.
Qed.



End Statistics.

(** ** The names the notebook reads *)

Module Scope.
Import Notebook.

(** The names an expression reads from its surroundings.  A list
    comprehension binds its target inside its element only. *)
Fixpoint free_names (e : expr) : list string :=
  match e with
  | Name x => [x]
  | Str _ | Num _ | FloatLit _ | BoolLit _ => []
  | Attribute v _ => free_names v
  | Call f args kws =>
      free_names f ++ flat_map free_names args
      ++ flat_map (λ kw, match kw with (_, v) => free_names v end) kws
  | BinOp l _ r => free_names l ++ free_names r
  | IfExp b t o => free_names b ++ free_names t ++ free_names o
  | ListLit es => flat_map free_names es
  | ListComp e x it =>
      List.filter (λ y, negb (bool_decide (y = x))) (free_names e)
      ++ free_names it
  | JoinedStr vs => flat_map free_names vs
  | FormattedValue v => free_names v
  end.

Definition reads (s : stmt) : list string :=
  match s with
  | AssignTo _ v | Expr v => free_names v
  | _ => []
  end.

(** The part of a dotted module name before the first dot. *)
Fixpoint top_package (m : string) : string :=
  match m with
  | EmptyString => EmptyString
  | String c m =>
      if decide (c = "."%char) then EmptyString else String c (top_package m)
  end.

(** The names a statement binds at module level. *)
Definition binds (s : stmt) : list string :=
  match s with
  | ImportAs m None => [top_package m]
  | ImportAs _ (Some a) => [a]
  | ImportFrom _ names => names
  | AssignTo x _ => [x]
  | Expr _ => []
  end.

(** The names read before anything binds them (NameError), when the
    statements run in order with [defined] bound at the start. *)
Fixpoint unbound (defined : list string) (code : list stmt) : list string :=
  match code with
  | [] => []
  | s :: code =>
      List.filter (λ x, negb (bool_decide (x ∈ defined))) (reads s)
      ++ unbound (binds s ++ defined) code
  end.

(** The builtins the notebook uses. *)
Definition builtins : list string := ["print"; "sum"; "len"; "isinstance"].

(** X18.  Run from top to bottom, the cells read no name that an earlier
    statement has not bound; the evaluation cell, the sparsity cell and the
    mean cell each need names bound by earlier cells, so that running them
    right after the imports reads unbound names. *)
Theorem names_bound_in_order :
  unbound builtins code = [] ∧
  unbound builtins (cell_imports ++ cell_sparsity) = ["model"] ∧
  unbound builtins (cell_imports ++ cell_evaluate)
  = ["model_path"; "env_id"; "device"] ∧
  unbound builtins (cell_imports ++ cell_parameters ++ cell_mean)
  = ["episodic_returns"; "episodic_returns"].
Proof. repeat split; vm_compute; reflexivity. Qed.

End Scope.

(** ** Arguments the functions do not read *)

Module Arity.
Import Sh Scripts Obs Calls.

Definition reads_two_arguments (s : script) (o : oracle)
    (e a : string) (more : list string) : Prop :=
  run_function o s (e :: a :: more) = run_function o s [e; a] ∧
  (s = baseline → run_function o s (e :: a :: more) = run_function o s []).

(** X5.  The functions read $1 and $2 only: further arguments of a call change
    nothing, and the function of scripts/baseline.sh, which reads no
    argument, does the same whatever it is called with. *)
Theorem further_arguments_ignored (s : script) (o : oracle)
    (e a : string) (more : list string) :
  s ∈ repository → reads_two_arguments s o e a more.
Proof.
  intros Hs. unfold repository in Hs. by_cases Hs.
  all: split; [vm_compute; reflexivity|].
  1: intros _; vm_compute; reflexivity.
  all: intros H; vm_compute in H; discriminate H.
Qed.

Lemma further_arguments_witness :
  dqn_random_sweep ∈ repository ∧
  reads_two_arguments dqn_random_sweep all_succeed "R_0.1" "0.1" ["--seed"].
Proof.
  assert (dqn_random_sweep ∈ repository) as H.
  { unfold repository. do 2 apply list_elem_of_further.
    apply list_elem_of_here. }
  split; [exact H | exact (further_arguments_ignored _ _ _ _ _ H)].
Defined.

End Arity.
